(** * qutebrowser.widgets.statusbar: command line, history browsing, validator

    A shallow embedding of the logic of [qutebrowser/widgets/statusbar.py]:
    the [Command] line edit with its class-level [history] list and the
    browse cursor ([_tmphist], [_histpos]), the [CommandValidator], and the
    [Text] label with its saved [old_text].  Layout, painting, style sheets
    and signal wiring of the toolkit are not modelled. *)

From Stdlib Require Import ZArith String Ascii DecimalString Lia.
From stdpp Require Import base list.

Local Open Scope Z_scope.

(** ** The Python built-ins the module relies on *)

Module Py.

(** A [str] is a sequence of Unicode code points. *)
Definition char : Type := N.
Definition str : Type := list char.

(** An ASCII literal as a [str]. *)
Definition lit (s : string) : str :=
  List.map N_of_ascii (list_ascii_of_string s).
Arguments lit s%_string.

(** The exceptions that list and string subscripts can raise. *)
Inductive exn : Type := IndexError | TypeError.

Inductive outcome (A : Type) : Type :=
| Return (a : A)
| Raise (e : exn).
Arguments Return {A} a.
Arguments Raise {A} e.

(** Truth value of a sequence: [if s:] and [not s]. *)
Definition truthy {A} (s : list A) : bool :=
  match s with [] => false | _ :: _ => true end.

(** [s[i]]: a negative subscript counts from the end, anything outside
    [-len(s) .. len(s)-1] raises [IndexError]. *)
Definition getitem {A} (s : list A) (i : Z) : outcome A :=
  let n := Z.of_nat (length s) in
  let j := if i <? 0 then i + n else i in
  if (0 <=? j) && (j <? n) then
    match s !! Z.to_nat j with
    | Some x => Return x
    | None => Raise IndexError
    end
  else Raise IndexError.

(** [s[i]] where [i] may be [None] (a [TypeError]). *)
Definition getitem_obj {A} (s : list A) (i : option Z) : outcome A :=
  match i with
  | Some i => getitem s i
  | None => Raise TypeError
  end.

(** [s.startswith(prefix)]. *)
Fixpoint startswith (s prefix : str) {struct prefix} : bool :=
  match prefix with
  | [] => true
  | p :: prefix' =>
      match s with
      | [] => false
      | c :: s' => if N.eqb c p then startswith s' prefix' else false
      end
  end.

(** The white space of [str.strip()] (CPython's [_PyUnicode_IsWhitespace]). *)
Definition isspace (c : char) : bool :=
  (((9 <=? c) && (c <=? 13)) || ((28 <=? c) && (c <=? 32))
   || (c =? 133) || (c =? 160) || (c =? 5760)
   || ((8192 <=? c) && (c <=? 8202))
   || (c =? 8232) || (c =? 8233) || (c =? 8239) || (c =? 8287)
   || (c =? 12288))%N.

(** Drop the longest prefix (suffix) of characters satisfying [p]. *)
Fixpoint lstrip_by (p : char -> bool) (s : str) : str :=
  match s with
  | [] => []
  | c :: s' => if p c then lstrip_by p s' else s
  end.

Definition rstrip_by (p : char -> bool) (s : str) : str :=
  reverse (lstrip_by p (reverse s)).

(** [d.get(k)] on a dict written as its list of items; [k in d] is
    [d.get(k)] being some value. *)
Fixpoint dict_get {V} (d : list (str * V)) (k : str) : option V :=
  match d with
  | [] => None
  | (k', v) :: d' => if bool_decide (k = k') then Some v else dict_get d' k
  end.

(** [s.strip()]. *)
Definition strip (s : str) : str :=
  rstrip_by isspace (lstrip_by isspace s).

(** [s.lstrip(chars)]: [chars] is the set of characters to remove. *)
Definition lstrip (s chars : str) : str :=
  lstrip_by (fun c => existsb (N.eqb c) chars) s.

(** [str(i)] for an int: its decimal numeral, with a leading minus sign
    when negative. *)
Definition int_str (i : Z) : str :=
  lit (NilZero.string_of_int (Z.to_int i)).

(** [s.rjust(width)]: pad with spaces on the left up to [width]. *)
Definition rjust (width : nat) (s : str) : str :=
  replicate (width - length s) 32%N ++ s.

(** ['{:2}'.format(i)] for an int: numbers are right-aligned in the field. *)
Definition format_int_2 (i : Z) : str :=
  rjust 2 (int_str i).

End Py.

Import Py.

(** ** State with exceptions

    A method runs on the widget's state and either returns or raises; the
    assignments made before a [raise] stay. *)

Section Monad.
Context {S : Type}.

Definition M (A : Type) : Type := S -> outcome A * S.

Definition ret {A} (a : A) : M A := fun st => (Return a, st).

Definition bind {A B} (m : M A) (k : A -> M B) : M B :=
  fun st =>
    match m st with
    | (Return a, st') => k a st'
    | (Raise e, st') => (Raise e, st')
    end.

Definition gets {A} (f : S -> A) : M A := fun st => (Return (f st), st).

Definition modify (f : S -> S) : M unit := fun st => (Return tt, f st).

Definition lift {A} (o : outcome A) : M A := fun st => (o, st).

Definition exec {A} (m : M A) (st : S) : S := snd (m st).

Definition result {A} (m : M A) (st : S) : outcome A := fst (m st).
End Monad.

Arguments M S A : clear implicits.

Declare Scope py_scope.
Delimit Scope py_scope with py.
Notation "x <- c1 ;; c2" := (bind c1 (fun x => c2))
  (at level 100, c1 at next level, right associativity) : py_scope.
Notation "c1 ;; c2" := (bind c1 (fun _ => c2))
  (at level 100, right associativity) : py_scope.
Local Open Scope py_scope.

(** ** class Command(QLineEdit) *)

Module Command.

(** The signals [process_cmdline] can emit. *)
Inductive signal : Type := got_cmd | got_search | got_search_rev.

(** The object [_tmphist] is bound to.  Line 231 binds it to the [history]
    list itself, without a copy, so later appends to [history] show through
    it; the comprehension of line 229 and the class-level [[]] of line 150
    are lists of their own. *)
Inductive listref : Type :=
| the_history
| own_list (l : list str).

Record state : Type := mk_state {
  text : str;            (* QLineEdit.text() *)
  history : list str;    (* class attribute, shared by every instance *)
  _tmphist : listref;
  _histpos : option Z;   (* None, or an int *)
}.

(** The list [self._tmphist] evaluates to. *)
Definition tmphist (st : state) : list str :=
  match _tmphist st with
  | the_history => history st
  | own_list l => l
  end.

(** A fresh widget: the class attributes of lines 149-151 and an empty
    line edit. *)
Definition init : state :=
  {| text := []; history := []; _tmphist := own_list []; _histpos := None |}.

Definition setText (s : str) : M state unit :=
  modify (fun st => mk_state s (history st) (_tmphist st) (_histpos st)).

Definition set_tmphist (r : listref) : M state unit :=
  modify (fun st => mk_state (text st) (history st) r (_histpos st)).

Definition set_histpos (p : option Z) : M state unit :=
  modify (fun st => mk_state (text st) (history st) (_tmphist st) p).

(** [self.history.append(e)]: the shared list is changed in place. *)
Definition history_append (e : str) : M state unit :=
  modify (fun st => mk_state (text st) (history st ++ [e]) (_tmphist st) (_histpos st)).

Definition signals : list (str * signal) :=
  [(lit ":", got_cmd); (lit "/", got_search); (lit "?", got_search_rev)].

(** Lines 234-236. *)
Definition _histbrowse_stop : M state unit :=
  set_histpos None.

(** Lines 188-189: [if not self.history or text != self.history[-1]:
    self.history.append(text)]. *)
Definition record (entry : str) : M state unit :=
  h <- gets history ;;
  differs <- (if negb (truthy h) then ret true
              else
                newest <- lift (getitem h (-1)) ;;
                ret (negb (bool_decide (entry = newest)))) ;;
  if differs : bool then history_append entry else ret tt.

(** Lines 179-192.  The value returned is the signal emitted together with
    its argument, if any. *)
Definition process_cmdline : M state (option (signal * str)) :=
  _histbrowse_stop ;;
  t <- gets text ;;
  record t ;;
  setText [] ;;
  c <- lift (getitem t 0) ;;
  match dict_get signals [c] with
  | Some sig => ret (Some (sig, lstrip t [c]))
  | None => ret None
  end.

(** Lines 194-197 ([setFocus] belongs to the toolkit). *)
Definition set_cmd (s : str) : M state unit :=
  setText s.

(** Lines 199-203. *)
Definition append_cmd (s : str) : M state unit :=
  setText (lit ":" ++ s).

Inductive FocusReason : Type :=
| MouseFocusReason | TabFocusReason | BacktabFocusReason
| ActiveWindowFocusReason | PopupFocusReason | ShortcutFocusReason
| MenuBarFocusReason | OtherFocusReason | NoFocusReason.

(** Lines 205-212. *)
Definition focusOutEvent (reason : FocusReason) : M state unit :=
  match reason with
  | MouseFocusReason | TabFocusReason | BacktabFocusReason | OtherFocusReason =>
      setText [] ;; _histbrowse_stop
  | _ => ret tt
  end.

(** Lines 219-232. *)
Definition _histbrowse_start : M state unit :=
  t <- gets text ;;
  let pre := strip t in
  (if truthy pre then
     h <- gets history ;;
     set_tmphist (own_list (List.filter (fun e => startswith e pre) h))
   else
     set_tmphist the_history) ;;
  tmp <- gets tmphist ;;
  set_histpos (Some (Z.of_nat (length tmp) - 1)).

(** Lines 247-251, the part of [key_up_handler] after the position is
    settled. *)
Definition key_up_show : M state unit :=
  tmp <- gets tmphist ;;
  if negb (truthy tmp) then ret tt
  else
    pos <- gets _histpos ;;
    e <- lift (getitem_obj tmp pos) ;;
    set_cmd e.

(** Lines 238-251. *)
Definition key_up_handler : M state unit :=
  pos <- gets _histpos ;;
  match pos with
  | None => _histbrowse_start ;; key_up_show
  | Some p =>
      if p <=? 0 then ret tt
      else set_histpos (Some (p - 1)) ;; key_up_show
  end.

(** Lines 253-264. *)
Definition key_down_handler : M state unit :=
  pos <- gets _histpos ;;
  match pos with
  | None => ret tt
  | Some p =>
      tmp <- gets tmphist ;;
      if (p >=? Z.of_nat (length tmp) - 1) || negb (truthy tmp) then ret tt
      else
        set_histpos (Some (p + 1)) ;;
        tmp' <- gets tmphist ;;
        pos' <- gets _histpos ;;
        e <- lift (getitem_obj tmp' pos') ;;
        set_cmd e
  end.

(** What can happen to a [Command] widget: the connections made in
    [__init__] (lines 163-177), the public setters, the focus event, and a
    second [Command] instance submitting a line, which appends to the same
    class-level [history]. *)
Inductive event : Type :=
| returnPressed                    (* -> process_cmdline *)
| textEdited (s : str)             (* the user changed the text to s -> _histbrowse_stop *)
| Key_Up                           (* -> key_up_handler *)
| Key_Down                         (* -> key_down_handler *)
| call_set_cmd (s : str)
| call_append_cmd (s : str)
| focusOut (reason : FocusReason)
| peer_returnPressed (s : str).    (* lines 188-189 run by another instance *)

Definition handle (ev : event) : M state unit :=
  match ev with
  | returnPressed => process_cmdline ;; ret tt
  | textEdited s => setText s ;; _histbrowse_stop
  | Key_Up => key_up_handler
  | Key_Down => key_down_handler
  | call_set_cmd s => set_cmd s
  | call_append_cmd s => append_cmd s
  | focusOut reason => focusOutEvent reason
  | peer_returnPressed s => record s
  end.

(** The state after a sequence of events; an exception raised by a handler
    ends that handler only. *)
Definition run (evs : list event) (st : state) : state :=
  fold_left (fun st ev => exec (handle ev) st) evs st.

Definition reachable (st : state) : Prop :=
  exists evs, st = run evs init.

End Command.

Import Command.

(** ** class CommandValidator(QValidator) *)

Module CommandValidator.

(** [QValidator.State]. *)
Inductive State : Type := Invalid | Intermediate | Acceptable.

(** Lines 271-283.  [keys.startchars] is defined in
    [qutebrowser.commands.keys]; [startchars] is the sequence of items that
    iterating it yields. *)
Definition validate (startchars : list str) (string : str) (pos : Z)
  : State * str * Z :=
  if existsb (fun c => startswith string c) startchars
  then (Acceptable, string, pos)
  else (Invalid, string, pos).

(** The items of a [str]: its characters, each a [str] of length one. *)
Definition items (s : str) : list str := List.map (fun c => [c]) s.

End CommandValidator.

(** ** class Text(TextBase) *)

Module Text.

Record state : Type := mk_state {
  text : str;       (* QLabel.text() *)
  old_text : str;   (* '' until the first set_error *)
}.

Definition init : state := {| text := []; old_text := [] |}.

Definition setText (s : str) : M state unit :=
  modify (fun st => mk_state s (old_text st)).

(** Lines 361-364. *)
Definition set_error (msg : str) : M state unit :=
  t <- gets text ;;
  modify (fun st => mk_state (text st) t) ;;
  setText msg.

(** Lines 366-368. *)
Definition clear_error : M state unit :=
  t <- gets old_text ;;
  setText t.

End Text.


(** ** class Percentage(TextBase) *)

Module Percentage.

Record state : Type := mk_state {
  text : str;       (* QLabel.text() *)
}.

Definition setText (s : str) : M state unit :=
  modify (fun _ => mk_state s).

(** Lines 382-390; [x] and [y] are the ints of the scroll signal. *)
Definition set_perc (x y : Z) : M state unit :=
  if y =? 0 then setText (lit "[top]")
  else if y =? 100 then setText (lit "[bot]")
  else setText (lit "[" ++ format_int_2 y ++ lit "%]").

End Percentage.

(** ** class Url(TextBase) *)

Module Url.

Record state : Type := mk_state {
  text : str;       (* QLabel.text() *)
  old_url : str;    (* '' until a link is hovered *)
}.

Definition init : state := {| text := []; old_url := [] |}.

Definition setText (s : str) : M state unit :=
  modify (fun st => mk_state s (old_url st)).

(** Lines 399-401.  [urlstring] is [qutebrowser.utils.url.urlstring], a
    function from whatever the signal carries to the [str] to show. *)
Definition set_url {U : Type} (urlstring : U -> str) (s : U) : M state unit :=
  setText (urlstring s).

(** Lines 403-415. *)
Definition set_hover_url (link title text_ : str) : M state unit :=
  if truthy link then
    t <- gets text ;;
    modify (fun st => mk_state (text st) t) ;;
    setText link
  else
    old <- gets old_url ;;
    setText old.

End Url.

(** ** The vocabulary of the specification *)

(** [t] is [s] trimmed of surrounding white space. *)
Definition trimmed (s t : str) : Prop :=
  exists l r,
    s = l ++ t ++ r /\
    Forall (fun c => isspace c = true) l /\
    Forall (fun c => isspace c = true) r /\
    (forall c, head t = Some c -> isspace c = false) /\
    (forall c, last t = Some c -> isspace c = false).

(** The view of the log that browsing walks through: every entry when no
    prefix was typed, otherwise the entries that start with the prefix, in
    log order. *)
Definition browse_view (log : list str) (pre : str) : list str :=
  if decide (pre = []) then log
  else filter (fun e => pre `prefix_of` e) log.

(** No two neighbours of the list are equal. *)
Definition no_consecutive_dup (log : list str) : Prop :=
  forall (i : nat) (a b : str),
    log !! i = Some a -> log !! (i + 1)%nat = Some b -> a <> b.

(** The log after lines 188-189. *)
Definition recorded (log : list str) (entry : str) : list str :=
  if decide (log = [] \/ last log <> Some entry) then log ++ [entry] else log.

(** The cursor, when set, lies between -1 and the last index of
    [_tmphist]. *)
Definition cursor_in_range (st : state) : Prop :=
  forall p, _histpos st = Some p ->
    -1 <= p <= Z.of_nat (length (tmphist st)) - 1.

(** The state [_histbrowse_start] leaves. *)
Definition started (st : state) : state := exec _histbrowse_start st.

(** What an Up or Down key that shows an entry leaves: the position is a
    valid index of [_tmphist], counted from the front, and the command
    line holds the entry at it. *)
Definition shows_entry (st : state) : Prop :=
  exists (p : Z) (e : str),
    _histpos st = Some p /\
    0 <= p < Z.of_nat (length (tmphist st)) /\
    tmphist st !! Z.to_nat p = Some e /\
    text st = e.

(** The log after the lines "a", "b" and "c" were typed and submitted. *)
Definition logged_abc : state :=
  run [textEdited (lit "a"); returnPressed;
       textEdited (lit "b"); returnPressed;
       textEdited (lit "c"); returnPressed] init.

(** Browsing is under way on [view] at index [p], and the command line
    shows the entry at [p]. *)
Definition browsing_at (st : state) (view : list str) (p : Z) : Prop :=
  tmphist st = view /\
  _histpos st = Some p /\
  0 <= p < Z.of_nat (length view) /\
  view !! Z.to_nat p = Some (text st).

(** The events of the Up and the Down key. *)
Definition is_arrow_key (ev : event) : Prop :=
  ev = Key_Up \/ ev = Key_Down.

(** The label [set_perc] shows for the percentage [y], on a fresh label
    and with [x = 0]. *)
Definition percentage_label (y : Z) : str :=
  Percentage.text (exec (Percentage.set_perc 0 y) (Percentage.mk_state [])).


(** ** Facts about the built-ins *)

Section PyFacts.

Lemma truthy_true {A} (s : list A) : truthy s = true <-> s <> [].
Proof. destruct s; simpl; split; congruence. Qed.

Lemma truthy_false {A} (s : list A) : truthy s = false <-> s = [].
Proof. destruct s; simpl; split; congruence. Qed.

Lemma startswith_prefix_of (s p : str) :
  startswith s p = true <-> p `prefix_of` s.
Proof.
  revert s. induction p as [|c p IH]; intros s; simpl.
  - split; [intros _; apply prefix_nil | done].
  - destruct s as [|d s].
    + split; [discriminate | intros H; by apply prefix_nil_not in H].
    + destruct (N.eqb_spec d c) as [->|Hne].
      * rewrite IH. split; [apply prefix_cons | apply prefix_cons_inv_2].
      * split; [discriminate |].
        intros H. apply prefix_cons_inv_1 in H. congruence.
Qed.

Lemma getitem_in_range {A} (s : list A) (i : Z) :
  0 <= i < Z.of_nat (length s) ->
  exists x, s !! Z.to_nat i = Some x /\ getitem s i = Return x.
Proof.
  intros Hi. unfold getitem.
  destruct (Z.ltb_spec i 0); [lia|].
  destruct (Z.leb_spec 0 i); [|lia].
  destruct (Z.ltb_spec i (Z.of_nat (length s))); [|lia]. simpl.
  destruct (lookup_lt_is_Some_2 s (Z.to_nat i)) as [x Hx]; [lia|].
  exists x. by rewrite Hx.
Qed.

Lemma getitem_newest {A} (s : list A) (x : A) :
  last s = Some x -> getitem s (-1) = Return x.
Proof.
  intros Hx. rewrite last_lookup in Hx.
  assert (length s <> 0%nat) by (destruct s; [done | simpl; lia]).
  unfold getitem. destruct (Z.ltb_spec (-1) 0); [|lia].
  destruct (Z.leb_spec 0 (-1 + Z.of_nat (length s))); [|lia].
  destruct (Z.ltb_spec (-1 + Z.of_nat (length s)) (Z.of_nat (length s))); [|lia].
  simpl. replace (Z.to_nat (-1 + Z.of_nat (length s))) with (pred (length s)) by lia.
  by rewrite Hx.
Qed.

Lemma getitem_empty {A} (i : Z) : getitem (@nil A) i = Raise IndexError.
Proof.
  unfold getitem. simpl length. change (Z.of_nat 0) with 0.
  destruct (Z.ltb_spec i 0).
  - rewrite Z.add_0_r. destruct (Z.leb_spec 0 i); [lia | done].
  - destruct (Z.ltb_spec i 0); [lia|]. by destruct (0 <=? i).
Qed.

Lemma lstrip_by_split (p : char -> bool) (s : str) :
  exists l, s = l ++ lstrip_by p s /\ Forall (fun c => p c = true) l /\
            forall c, head (lstrip_by p s) = Some c -> p c = false.
Proof.
  induction s as [|c s (l & Hs & Hl & Hh)]; simpl.
  - exists []. repeat split; [constructor | discriminate].
  - destruct (p c) eqn:Hc.
    + exists (c :: l). split; [simpl; congruence|]. split; [by constructor | done].
    + exists []. repeat split; [constructor|]. simpl. congruence.
Qed.

Lemma lstrip_by_all (p : char -> bool) (l : str) :
  Forall (fun c => p c = true) l -> lstrip_by p l = [].
Proof. induction 1 as [|c l Hc _ IH]; simpl; [done | by rewrite Hc]. Qed.

Lemma lstrip_by_app (p : char -> bool) (l t : str) :
  Forall (fun c => p c = true) l ->
  (forall c, head t = Some c -> p c = false) ->
  lstrip_by p (l ++ t) = t.
Proof.
  intros Hl Ht. induction Hl as [|c l Hc _ IH]; simpl.
  - destruct t as [|c t]; simpl; [done|]. by rewrite (Ht c).
  - by rewrite Hc.
Qed.

Lemma strip_trimmed (s : str) : trimmed s (strip s).
Proof.
  unfold strip, rstrip_by.
  destruct (lstrip_by_split isspace s) as (l & Hs & Hl & Hh).
  set (s1 := lstrip_by isspace s) in *.
  destruct (lstrip_by_split isspace (reverse s1)) as (r & Hs1 & Hr & Hlast).
  set (u := lstrip_by isspace (reverse s1)) in *.
  assert (Hs1' : s1 = reverse u ++ reverse r).
  { rewrite <- reverse_app, <- Hs1. by rewrite reverse_involutive. }
  exists l, (reverse r). repeat split.
  - by rewrite <- Hs1'.
  - done.
  - by apply Forall_reverse.
  - intros c Hc. apply Hh. rewrite Hs1'.
    destruct (reverse u); [discriminate | done].
  - intros c Hc. apply Hlast. by rewrite last_reverse in Hc.
Qed.

Lemma trimmed_strip (s t : str) : trimmed s t -> strip s = t.
Proof.
  intros (l & r & -> & Hl & Hr & Hh & Hlast). unfold strip, rstrip_by.
  destruct t as [|c t].
  - simpl. rewrite (lstrip_by_all isspace (l ++ r)); [done | by apply Forall_app].
  - rewrite lstrip_by_app; [| done | simpl; intros d [= <-]; by apply Hh].
    rewrite reverse_app, lstrip_by_app, reverse_involutive;
      [done | by apply Forall_reverse |].
    intros d Hd. apply Hlast. by rewrite <- head_reverse.
Qed.

(** The comprehension of line 229 is the filtered view of the
    specification. *)
Lemma comprehension_browse_view (log : list str) (pre : str) :
  List.filter (fun e => startswith e pre) log =
  filter (fun e => pre `prefix_of` e) log.
Proof.
  induction log as [|e log IH]; simpl; [done|].
  rewrite filter_cons, IH.
  destruct (startswith e pre) eqn:E.
  - apply startswith_prefix_of in E. by rewrite decide_True.
  - rewrite decide_False; [done|].
    intros H. apply startswith_prefix_of in H. congruence.
Qed.

End PyFacts.

(** ** Facts about [Command] *)

Module CommandFacts.
Import Command.

Ltac unfold_monad :=
  unfold exec, result, bind, gets, modify, lift, ret in *; cbv beta in *.

Ltac unfold_setters :=
  unfold set_cmd, append_cmd, setText, set_tmphist, set_histpos,
    history_append, _histbrowse_stop in *.

Lemma record_eq (entry : str) (st : state) :
  record entry st =
  (Return tt,
   mk_state (text st) (recorded (history st) entry) (_tmphist st) (_histpos st)).
Proof.
  unfold record, recorded. unfold_setters. unfold_monad.
  destruct st as [t h r p]. cbn [text history _tmphist _histpos].
  destruct (last h) as [x|] eqn:Hx.
  - assert (truthy h = true) as -> by (by destruct h).
    cbn [negb]. rewrite (getitem_newest h x Hx).
    destruct (decide (entry = x)) as [->|Hne].
    + rewrite bool_decide_eq_true_2 by done. cbn [negb].
      rewrite decide_False; [done|]. intros [->|?]; [done | congruence].
    + rewrite bool_decide_eq_false_2 by done. cbn [negb].
      rewrite decide_True; [done|]. right. congruence.
  - apply last_None in Hx as ->. cbn [truthy negb].
    rewrite decide_True; [done | by left].
Qed.

Lemma process_cmdline_state (st : state) :
  exec process_cmdline st =
  mk_state [] (recorded (history st) (text st)) (_tmphist st) None.
Proof.
  unfold process_cmdline. unfold_monad.
  unfold _histbrowse_stop, set_histpos, modify. rewrite record_eq. simpl.
  unfold setText, modify. simpl.
  destruct (getitem (text st) 0) as [c|]; [|done].
  by repeat destruct (bool_decide _).
Qed.

Lemma histbrowse_start_eq (st : state) :
  let pre := strip (text st) in
  _histbrowse_start st =
  (Return tt,
   mk_state (text st) (history st)
     (if truthy pre
      then own_list (List.filter (fun e => startswith e pre) (history st))
      else the_history)
     (Some (Z.of_nat (length (browse_view (history st) pre)) - 1))).
Proof.
  unfold _histbrowse_start, browse_view. unfold_setters. unfold_monad.
  destruct st as [t h r p]. cbn [text history _tmphist _histpos].
  destruct (strip t) as [|c pre] eqn:E.
  - by rewrite decide_True.
  - rewrite decide_False by done. by rewrite <- comprehension_browse_view.
Qed.

Lemma histbrowse_start_tmphist (st : state) :
  tmphist (exec _histbrowse_start st) =
  browse_view (history st) (strip (text st)).
Proof.
  unfold exec. rewrite histbrowse_start_eq. unfold tmphist, browse_view.
  cbn [snd _tmphist history].
  destruct (strip (text st)); [done|].
  rewrite decide_False by done. apply comprehension_browse_view.
Qed.

Lemma key_up_show_eq (st : state) (p : Z) :
  _histpos st = Some p -> 0 <= p < Z.of_nat (length (tmphist st)) ->
  exists e, tmphist st !! Z.to_nat p = Some e /\
    key_up_show st = (Return tt, mk_state e (history st) (_tmphist st) (Some p)).
Proof.
  intros Hp Hr. unfold key_up_show. unfold_monad.
  assert (truthy (tmphist st) = true) as ->.
  { destruct (tmphist st); [simpl in Hr; lia | done]. }
  cbn [negb]. rewrite Hp. cbn [getitem_obj].
  destruct (getitem_in_range (tmphist st) p Hr) as (e & He & ->).
  exists e. split; [done|]. unfold_setters. unfold_monad. by rewrite Hp.
Qed.

Lemma key_up_show_empty (st : state) :
  tmphist st = [] -> key_up_show st = (Return tt, st).
Proof. intros E. unfold key_up_show. unfold_monad. by rewrite E. Qed.

Lemma recorded_length (log : list str) (entry : str) :
  (length log <= length (recorded log entry))%nat.
Proof. unfold recorded. case_decide; [rewrite length_app; simpl; lia | lia]. Qed.

Lemma started_fields (st : state) :
  text (started st) = text st /\ history (started st) = history st /\
  tmphist (started st) = browse_view (history st) (strip (text st)) /\
  _histpos (started st) =
    Some (Z.of_nat (length (browse_view (history st) (strip (text st)))) - 1).
Proof.
  split_and!; [| | apply histbrowse_start_tmphist |];
    unfold started, exec; by rewrite histbrowse_start_eq.
Qed.

Lemma key_up_inactive (st : state) :
  _histpos st = None ->
  key_up_handler st =
  (Return tt,
   match last (tmphist (started st)) with
   | Some e => exec (setText e) (started st)
   | None => started st
   end).
Proof.
  intros Hp. unfold key_up_handler, bind at 1, gets. rewrite Hp. unfold bind.
  pose proof (histbrowse_start_eq st) as E. cbv zeta in E.
  destruct (started_fields st) as (_ & _ & Ht & Hpos).
  unfold started, exec in *. rewrite E in *. cbn [snd] in *.
  set (st1 := mk_state _ _ _ _) in *.
  destruct (last (tmphist st1)) as [e|] eqn:Hl.
  - destruct (key_up_show_eq st1 (Z.of_nat (length (tmphist st1)) - 1))
      as (e' & He' & ->).
    + by rewrite Hpos, Ht.
    + destruct (tmphist st1); [done | simpl; lia].
    + rewrite last_lookup in Hl.
      replace (Z.to_nat (Z.of_nat (length (tmphist st1)) - 1))
        with (pred (length (tmphist st1))) in He' by lia.
      rewrite Hl in He'. injection He' as <-.
      unfold setText, modify. cbn [snd]. by rewrite Ht, <- Hpos.
  - apply last_None in Hl. by rewrite key_up_show_empty.
Qed.

Lemma key_up_edge (st : state) (p : Z) :
  _histpos st = Some p -> p <= 0 -> key_up_handler st = (Return tt, st).
Proof.
  intros Hp Hle. unfold key_up_handler, bind, gets. rewrite Hp.
  by destruct (Z.leb_spec p 0); [|lia].
Qed.

Lemma key_up_step (st : state) (p : Z) :
  _histpos st = Some p -> 0 < p <= Z.of_nat (length (tmphist st)) - 1 ->
  exists e, tmphist st !! Z.to_nat (p - 1) = Some e /\
    key_up_handler st =
    (Return tt, mk_state e (history st) (_tmphist st) (Some (p - 1))).
Proof.
  intros Hp Hr. unfold key_up_handler, bind at 1, gets. rewrite Hp.
  destruct (Z.leb_spec p 0); [lia|].
  unfold bind, set_histpos, modify.
  set (st1 := mk_state _ _ _ _).
  destruct (key_up_show_eq st1 (p - 1)) as (e & He & ->);
    [done | unfold tmphist in *; simpl; lia |].
  by exists e.
Qed.

Lemma key_down_inactive (st : state) :
  _histpos st = None -> key_down_handler st = (Return tt, st).
Proof. intros Hp. unfold key_down_handler, bind, gets. by rewrite Hp. Qed.

Lemma key_down_edge (st : state) (p : Z) :
  _histpos st = Some p -> Z.of_nat (length (tmphist st)) - 1 <= p ->
  key_down_handler st = (Return tt, st).
Proof.
  intros Hp Hle. unfold key_down_handler, bind, gets. rewrite Hp.
  by destruct (Z.geb_spec p (Z.of_nat (length (tmphist st)) - 1)); [|lia].
Qed.

Lemma key_down_step (st : state) (p : Z) :
  _histpos st = Some p -> -1 <= p < Z.of_nat (length (tmphist st)) - 1 ->
  exists e, tmphist st !! Z.to_nat (p + 1) = Some e /\
    key_down_handler st =
    (Return tt, mk_state e (history st) (_tmphist st) (Some (p + 1))).
Proof.
  intros Hp Hr. unfold key_down_handler, bind, gets. rewrite Hp.
  destruct (Z.geb_spec p (Z.of_nat (length (tmphist st)) - 1)); [lia|].
  assert (truthy (tmphist st) = true) as ->.
  { destruct (tmphist st); [simpl in Hr; lia | done]. }
  cbn [negb orb]. unfold_setters. unfold_monad.
  set (st1 := mk_state _ _ _ _).
  destruct (getitem_in_range (tmphist st1) (p + 1)) as (e & He & E).
  { unfold tmphist in *; simpl; lia. }
  exists e. split; [done|]. cbn [_histpos st1 getitem_obj]. by rewrite E.
Qed.

Lemma handle_cursor_in_range (ev : event) (st : state) :
  cursor_in_range st -> cursor_in_range (exec (handle ev) st).
Proof.
  intros Hinv. destruct ev; cbn [handle].
  - unfold exec, bind. pose proof (process_cmdline_state st) as E.
    unfold exec in E. destruct (process_cmdline st) as [[o|e] st']; simpl in *;
      subst st'; intros p; discriminate.
  - unfold_setters. unfold_monad. intros p; discriminate.
  - destruct (_histpos st) as [p|] eqn:Hp.
    + pose proof (Hinv p Hp) as Hr. destruct (Z.le_gt_cases p 0).
      * unfold exec. by rewrite (key_up_edge st p).
      * destruct (key_up_step st p) as (e & _ & E); [done | lia |].
        unfold exec. rewrite E. intros q [= <-]. unfold tmphist in *; simpl. lia.
    + unfold exec. rewrite key_up_inactive by done. cbn [snd].
      destruct (started_fields st) as (_ & _ & Ht & Hpos).
      assert (Hst : cursor_in_range (started st)).
      { intros q. rewrite Hpos, Ht. intros [= <-]. lia. }
      destruct (last (tmphist (started st))); [|done].
      intros q Hq. apply (Hst q Hq).
  - destruct (_histpos st) as [p|] eqn:Hp.
    + pose proof (Hinv p Hp) as Hr.
      destruct (Z.le_gt_cases (Z.of_nat (length (tmphist st)) - 1) p).
      * unfold exec. by rewrite (key_down_edge st p).
      * destruct (key_down_step st p) as (e & _ & E); [done | lia |].
        unfold exec. rewrite E. intros q [= <-]. unfold tmphist in *; simpl. lia.
    + unfold exec. by rewrite key_down_inactive.
  - done.
  - done.
  - destruct reason; try done; intros p; discriminate.
  - unfold exec. rewrite record_eq. simpl. intros p Hp.
    specialize (Hinv p Hp). unfold tmphist in *; simpl.
    destruct (_tmphist st); [|done].
    pose proof (recorded_length (history st) s). lia.
Qed.

Lemma run_snoc (evs : list event) (ev : event) (st : state) :
  run (evs ++ [ev]) st = exec (handle ev) (run evs st).
Proof. unfold run. by rewrite fold_left_app. Qed.

Lemma reachable_ind (P : state -> Prop) :
  P init ->
  (forall ev st, reachable st -> P st -> P (exec (handle ev) st)) ->
  forall st, reachable st -> P st.
Proof.
  intros H0 Hstep st [evs ->].
  induction evs as [|ev evs IH] using rev_ind; [done|].
  rewrite run_snoc. apply Hstep; [by exists evs | done].
Qed.

Lemma reachable_cursor_in_range (st : state) :
  reachable st -> cursor_in_range st.
Proof.
  apply reachable_ind.
  - intros p; discriminate.
  - intros ev st' _. apply handle_cursor_in_range.
Qed.

End CommandFacts.

(** ** The history log *)

Module HistoryFacts.
Import Command CommandFacts.

Lemma recorded_no_consecutive_dup (log : list str) (entry : str) :
  no_consecutive_dup log -> no_consecutive_dup (recorded log entry).
Proof.
  intros Hlog. unfold recorded. case_decide as Hd; [|done].
  intros i a b Ha Hb.
  assert (Hi : (i + 1 < length (log ++ [entry]))%nat) by (by eapply lookup_lt_Some).
  rewrite length_app in Hi. simpl in Hi.
  destruct (decide (i + 1 < length log)%nat) as [Hlt|Hge].
  - rewrite lookup_app_l in Ha, Hb by lia. by eapply Hlog.
  - assert (i + 1 = length log)%nat as Hlen by lia.
    rewrite lookup_app_l in Ha by lia.
    rewrite lookup_app_r, Hlen, Nat.sub_diag in Hb by lia.
    injection Hb as <-.
    replace i with (pred (length log)) in Ha by lia.
    rewrite <- last_lookup in Ha.
    destruct Hd as [->|Hd]; [done | congruence].
Qed.

(** Only lines 188-189 touch the log. *)
Lemma handle_history (ev : event) (st : state) :
  history (exec (handle ev) st) = history st \/
  exists entry, history (exec (handle ev) st) = recorded (history st) entry.
Proof.
  destruct ev; cbn [handle].
  - right. exists (text st).
    pose proof (process_cmdline_state st) as E. unfold exec, bind in *.
    destruct (process_cmdline st) as [[o|e] st']; simpl in *; by subst st'.
  - by left.
  - left. destruct (_histpos st) as [p|] eqn:Hp.
    + destruct (Z.le_gt_cases p 0).
      * unfold exec. by rewrite (key_up_edge st p).
      * unfold key_up_handler, bind at 1, gets. unfold exec. rewrite Hp.
        destruct (Z.leb_spec p 0); [lia|].
        unfold key_up_show. unfold_setters. unfold_monad.
        cbn [_histpos]. destruct (truthy (tmphist _)); cbn [negb]; [|done].
        by destruct (getitem_obj _ _).
    + unfold exec. rewrite key_up_inactive by done. cbn [snd].
      destruct (started_fields st) as (_ & Hh & _).
      by destruct (last _).
  - left. unfold key_down_handler, exec, bind, gets.
    destruct (_histpos st) as [p|]; [|done].
    destruct (_ || _); [done|].
    unfold_setters. unfold_monad. cbn [_histpos].
    by destruct (getitem_obj _ _).
  - by left.
  - by left.
  - left. by destruct reason.
  - right. exists s. unfold exec. by rewrite record_eq.
Qed.

Lemma run_no_consecutive_dup (evs : list event) (st : state) :
  no_consecutive_dup (history st) ->
  no_consecutive_dup (history (run evs st)).
Proof.
  intros Hst. induction evs as [|ev evs IH] using rev_ind; [done|].
  rewrite run_snoc.
  destruct (handle_history ev (run evs st)) as [->|[entry ->]]; [done|].
  by apply recorded_no_consecutive_dup.
Qed.

Lemma app_singleton_neq {A} (l : list A) (x : A) : l ++ [x] <> l.
Proof.
  intros E. apply (f_equal length) in E. rewrite length_app in E. simpl in E. lia.
Qed.

End HistoryFacts.

Import Command CommandFacts HistoryFacts.

(** C1.  Whatever happens to the widget, starting from a fresh one, its
    history log never holds two equal neighbours; and [process_cmdline]
    appends the submitted text to the log exactly when the log is empty or
    its last element differs from the text, leaving the log as it is
    otherwise. *)
Theorem history_no_consecutive_duplicates :
  (forall evs : list event, no_consecutive_dup (history (run evs init))) /\
  (forall st : state,
     (history (exec process_cmdline st) = history st ++ [text st] <->
      (history st = [] \/ last (history st) <> Some (text st))) /\
     (history (exec process_cmdline st) = history st <->
      ~ (history st = [] \/ last (history st) <> Some (text st)))).
Proof.
  split.
  - intros evs. apply run_no_consecutive_dup. intros i a b Ha. by destruct i.
  - intros st. rewrite process_cmdline_state. cbn [history]. unfold recorded.
    case_decide as Hd.
    + split; [done|]. split; [|done].
      intros E. by apply app_singleton_neq in E.
    + split; [|done]. split; [|done].
      intros E. symmetry in E. by apply app_singleton_neq in E.
Qed.

(** ** Starting to browse *)

Lemma browse_view_sublist (log : list str) (pre : str) :
  browse_view log pre `sublist_of` log.
Proof. unfold browse_view. case_decide; [done | apply sublist_filter]. Qed.

(** C2.  [_histbrowse_start] returns, binds [_tmphist] to the log entries
    that start with the trimmed input, in log order, when the trimmed input
    is not empty, and to the whole log otherwise, and sets [_histpos] to
    [len(_tmphist) - 1]; the log and the input are left alone.  After
    "a", "b", "c" were recorded, starting on the input "" gives the view
    ["a", "b", "c"] at position 2, and starting on "b" gives ["b"] at
    position 0. *)
Theorem histbrowse_start_builds_filtered :
  (forall st : state,
     let pre := strip (text st) in
     let st' := exec _histbrowse_start st in
     result _histbrowse_start st = Return tt /\
     trimmed (text st) pre /\
     (pre <> [] ->
      tmphist st' = filter (fun e => pre `prefix_of` e) (history st)) /\
     (pre = [] -> tmphist st' = history st) /\
     tmphist st' `sublist_of` history st /\
     (forall e, e ∈ tmphist st' <->
                e ∈ history st /\ (pre <> [] -> exists rest, e = pre ++ rest)) /\
     _histpos st' = Some (Z.of_nat (length (tmphist st')) - 1) /\
     history st' = history st /\
     text st' = text st) /\
  (history logged_abc = [lit "a"; lit "b"; lit "c"] /\
   (let st' := exec _histbrowse_start (exec (setText (lit "")) logged_abc) in
    tmphist st' = [lit "a"; lit "b"; lit "c"] /\ _histpos st' = Some 2) /\
   (let st' := exec _histbrowse_start (exec (setText (lit "b")) logged_abc) in
    tmphist st' = [lit "b"] /\ _histpos st' = Some 0)).
Proof.
  split; [|by vm_compute].
  intros st pre st'. subst st'.
  destruct (started_fields st) as (Htext & Hhist & Htmp & Hpos).
  unfold started in *. fold pre in Htmp, Hpos.
  split_and!.
  - unfold result. by rewrite histbrowse_start_eq.
  - apply strip_trimmed.
  - intros Hne. rewrite Htmp. unfold browse_view. by rewrite decide_False.
  - intros ->. by rewrite Htmp.
  - rewrite Htmp. apply browse_view_sublist.
  - intros e. rewrite Htmp. unfold browse_view. case_decide as Hpre.
    + split; [done | by intros [? _]].
    + rewrite list_elem_of_filter. split.
      * intros [[rest ->] He]. split; [done | by exists rest].
      * intros [He Hrest]. split; [|done]. destruct (Hrest Hpre) as [rest ->].
        by exists rest.
  - by rewrite Hpos, Htmp.
  - done.
  - done.
Qed.

(** C3, counterexample.  With ":a" in the log and the cursor inactive, the
    Down key leaves the cursor inactive, whereas starting to browse first
    would have put it on index 0. *)
Lemma key_down_does_not_start_browsing :
  let st := run [textEdited (lit ":a"); returnPressed] init in
  reachable st /\
  _histpos st = None /\
  key_down_handler st = (Return tt, st) /\
  _histpos (exec (_histbrowse_start ;; key_down_handler) st) = Some 0.
Proof. split; [by eexists | by vm_compute]. Qed.

(** C3, amended.  With the cursor inactive, the Up key first runs
    [_histbrowse_start] on the current input text and then shows the last
    entry of the view it built (nothing when that view is empty); the Down
    key does nothing and the cursor stays inactive.  So after
    [_histbrowse_stop] the Up key builds the view anew from the input
    text, whatever [_tmphist] held before. *)
Theorem key_up_starts_browsing_when_inactive (st : state) :
  _histpos st = None ->
  let view := browse_view (history st) (strip (text st)) in
  (key_up_handler st = (_histbrowse_start ;; key_up_show) st /\
   result key_up_handler st = Return tt /\
   tmphist (exec key_up_handler st) = view /\
   _histpos (exec key_up_handler st) = Some (Z.of_nat (length view) - 1) /\
   text (exec key_up_handler st) = default (text st) (last view) /\
   history (exec key_up_handler st) = history st) /\
  key_down_handler st = (Return tt, st) /\
  (forall (old : listref) (p : option Z),
     let before := mk_state (text st) (history st) old p in
     tmphist (exec key_up_handler (exec _histbrowse_stop before)) = view).
Proof.
  intros Hp view.
  assert (Hup : forall st0, _histpos st0 = None ->
            let v := browse_view (history st0) (strip (text st0)) in
            tmphist (exec key_up_handler st0) = v /\
            _histpos (exec key_up_handler st0) = Some (Z.of_nat (length v) - 1) /\
            text (exec key_up_handler st0) = default (text st0) (last v) /\
            history (exec key_up_handler st0) = history st0).
  { intros st0 H0 v. unfold exec. rewrite key_up_inactive by done. cbn [snd].
    destruct (started_fields st0) as (Htext & Hhist & Htmp & Hpos).
    fold v in Htmp, Hpos. rewrite Htmp.
    destruct (last v) as [e|]; [|done].
    unfold setText, modify. cbn [snd]. unfold tmphist in *. by cbn. }
  split_and!; try apply (Hup st Hp).
  - unfold key_up_handler, bind at 1, gets. by rewrite Hp.
  - unfold result. by rewrite key_up_inactive.
  - by apply key_down_inactive.
  - intros old p before. by destruct (Hup (exec _histbrowse_stop before) eq_refl).
Qed.

Lemma key_up_starts_browsing_when_inactive_witness :
  _histpos logged_abc = None /\
  tmphist (exec key_up_handler logged_abc) = [lit "a"; lit "b"; lit "c"] /\
  text (exec key_up_handler logged_abc) = lit "c" /\
  key_down_handler logged_abc = (Return tt, logged_abc).
Proof.
  split; [reflexivity|].
  destruct (key_up_starts_browsing_when_inactive logged_abc eq_refl)
    as ((_ & _ & Hview & _ & Htext & _) & Hdown & _).
  split; [exact Hview|]. split; [exact Htext | exact Hdown].
Defined.

(** ** Stepping through the view *)

Module StepFacts.
Import Command CommandFacts.

Lemma reachable_init : reachable init.
Proof. by exists []. Qed.

Lemma reachable_step (ev : event) (st : state) :
  reachable st -> reachable (exec (handle ev) st).
Proof. intros [evs ->]. exists (evs ++ [ev]). by rewrite run_snoc. Qed.

Lemma reachable_iter (ev : event) (n : nat) (st : state) :
  reachable st -> reachable (Nat.iter n (exec (handle ev)) st).
Proof. intros Hst. induction n as [|n IH]; [done | by apply reachable_step]. Qed.

(** The position after [n] presses of Up. *)
Lemma iter_key_up (st : state) (p : Z) (n : nat) :
  reachable st -> _histpos st = Some p ->
  _histpos (Nat.iter n (exec key_up_handler) st) =
  Some (Z.max (p - Z.of_nat n) (Z.min p 0)).
Proof.
  intros Hst Hp. induction n as [|n IH].
  - simpl. rewrite Hp. f_equal. lia.
  - rewrite Nat.iter_succ. set (stn := Nat.iter n (exec key_up_handler) st) in *.
    assert (Hr : reachable stn) by (by apply (reachable_iter Key_Up)).
    pose proof (reachable_cursor_in_range stn Hr _ IH) as Hrange.
    destruct (Z.le_gt_cases (Z.max (p - Z.of_nat n) (Z.min p 0)) 0).
    + unfold exec. rewrite (key_up_edge stn _ IH) by done. cbn [snd].
      rewrite IH. f_equal. lia.
    + destruct (key_up_step stn _ IH) as (e & _ & E); [lia|].
      unfold exec. rewrite E. cbn [snd _histpos]. f_equal. lia.
Qed.

(** The position after [n] presses of Down; the view stays the same. *)
Lemma iter_key_down (st : state) (p : Z) (n : nat) :
  reachable st -> _histpos st = Some p ->
  let stn := Nat.iter n (exec key_down_handler) st in
  tmphist stn = tmphist st /\
  _histpos stn =
  Some (Z.min (p + Z.of_nat n) (Z.of_nat (length (tmphist st)) - 1)).
Proof.
  intros Hst Hp. pose proof (reachable_cursor_in_range st Hst p Hp) as Hrange.
  induction n as [|n [IHt IHp]].
  - simpl. split; [done|]. rewrite Hp. f_equal. lia.
  - intros stn'. subst stn'. rewrite Nat.iter_succ.
    set (stn := Nat.iter n (exec key_down_handler) st) in *.
    assert (Hr : reachable stn) by (by apply (reachable_iter Key_Down)).
    pose proof (reachable_cursor_in_range stn Hr _ IHp) as Hrn.
    rewrite IHt in Hrn.
    destruct (Z.le_gt_cases (Z.of_nat (length (tmphist st)) - 1)
                (Z.min (p + Z.of_nat n) (Z.of_nat (length (tmphist st)) - 1))).
    + unfold exec. rewrite (key_down_edge stn _ IHp) by (rewrite IHt; lia).
      cbn [snd]. split; [done|]. rewrite IHp. f_equal. lia.
    + destruct (key_down_step stn _ IHp) as (e & _ & E); [rewrite IHt; lia|].
      unfold exec. rewrite E. cbn [snd _histpos]. split.
      * unfold tmphist in *. by cbn.
      * f_equal. lia.
Qed.

Lemma started_empty_view (st : state) :
  browse_view (history st) (strip (text st)) = [] ->
  tmphist (started st) = [] /\ _histpos (started st) = Some (-1) /\
  text (started st) = text st /\ history (started st) = history st.
Proof.
  intros Hv. destruct (started_fields st) as (Htext & Hhist & Htmp & Hpos).
  rewrite Hv in Htmp, Hpos. by split_and!.
Qed.

End StepFacts.

Import StepFacts.

(** C4, counterexample.  On a fresh widget, with an empty log,
    [_histbrowse_start] does set the position, to -1, and so changes the
    state. *)
Lemma histbrowse_start_empty_log_sets_position :
  history init = [] /\
  _histpos init = None /\
  _histpos (exec _histbrowse_start init) = Some (-1) /\
  exec _histbrowse_start init <> init.
Proof. split_and!; try reflexivity. intros E. discriminate E. Qed.

(** C4, amended.  When the view to build is empty (as with an empty log),
    [_histbrowse_start] returns and leaves the log and the input text alone,
    but the cursor does not stay inactive: [_tmphist] becomes the empty
    view and [_histpos] becomes -1.  In that state the Up and the Down key
    do nothing, and an Up key that started browsing this way shows
    nothing. *)
Theorem histbrowse_start_on_empty_view (st : state) :
  browse_view (history st) (strip (text st)) = [] ->
  let st' := exec _histbrowse_start st in
  result _histbrowse_start st = Return tt /\
  tmphist st' = [] /\
  _histpos st' = Some (-1) /\
  text st' = text st /\
  history st' = history st /\
  key_up_handler st' = (Return tt, st') /\
  key_down_handler st' = (Return tt, st') /\
  (_histpos st = None -> key_up_handler st = (Return tt, st')).
Proof.
  intros Hv st'. destruct (started_empty_view st Hv) as (Ht & Hp & Htext & Hh).
  fold (started st) in st'. subst st'. split_and!; try done.
  - unfold result. by rewrite histbrowse_start_eq.
  - by apply (key_up_edge _ (-1)).
  - apply (key_down_edge _ (-1)); [done | rewrite Ht; simpl; lia].
  - intros Hnone. rewrite key_up_inactive by done. by rewrite Ht.
Qed.

Lemma histbrowse_start_on_empty_view_witness :
  browse_view (history init) (strip (text init)) = [] /\
  _histpos (exec _histbrowse_start init) = Some (-1) /\
  key_up_handler init = (Return tt, exec _histbrowse_start init).
Proof.
  split; [reflexivity|].
  destruct (histbrowse_start_on_empty_view init eq_refl)
    as (_ & _ & Hp & _ & _ & _ & _ & Hup).
  split; [exact Hp | exact (Hup eq_refl)].
Defined.

(** C5, counterexample.  The Up key on a fresh widget, which is inactive
    and has an empty log, sets the position to -1, below 0; and in the
    state it leaves, where the position is not 0, a further Up key does not
    decrement. *)
Lemma key_up_on_empty_log_goes_below_zero :
  let st := exec key_up_handler init in
  reachable init /\ reachable st /\
  _histpos st = Some (-1) /\
  key_up_handler st = (Return tt, st).
Proof.
  split_and!; [apply reachable_init | by exists [Key_Up] | done | done].
Qed.

(** C5, amended.  In every reachable state and after any number of Up
    keys the position is never below -1, and a position that is at least 0
    never moves below 0.  With the position at 0 or at -1 (the value left by
    starting on an empty view) the Up key does nothing: no wrap-around, the
    cursor stays set.  With the position above 0 it decrements the position
    by one and puts the entry of [_tmphist] at the new position into the
    command line. *)
Theorem key_up_clamps_at_first (st : state) :
  reachable st ->
  (forall (n : nat) (q : Z),
     _histpos (Nat.iter n (exec key_up_handler) st) = Some q -> -1 <= q) /\
  (forall p : Z, _histpos st = Some p ->
     (p <= 0 -> key_up_handler st = (Return tt, st)) /\
     (0 < p ->
      exists e, tmphist st !! Z.to_nat (p - 1) = Some e /\
        key_up_handler st =
        (Return tt, mk_state e (history st) (_tmphist st) (Some (p - 1)))) /\
     (forall n : nat,
        _histpos (Nat.iter n (exec key_up_handler) st) =
        Some (Z.max (p - Z.of_nat n) (Z.min p 0)))).
Proof.
  intros Hst. split.
  - intros n q Hq.
    assert (Hr : reachable (Nat.iter n (exec key_up_handler) st))
      by (by apply (reachable_iter Key_Up)).
    by destruct (reachable_cursor_in_range _ Hr q Hq).
  - intros p Hp. pose proof (reachable_cursor_in_range st Hst p Hp) as Hr.
    split_and!.
    + by apply key_up_edge.
    + intros Hpos. apply key_up_step; [done | lia].
    + intros n. by apply iter_key_up.
Qed.

Lemma key_up_clamps_at_first_witness :
  reachable (exec key_up_handler logged_abc) /\
  _histpos (Nat.iter 5 (exec key_up_handler) (exec key_up_handler logged_abc))
  = Some 0.
Proof.
  assert (Hr : reachable (exec key_up_handler logged_abc)).
  { apply (reachable_step Key_Up). by eexists. }
  split; [exact Hr|].
  destruct (key_up_clamps_at_first _ Hr) as [_ H].
  destruct (H 2 eq_refl) as (_ & _ & Hn). exact (Hn 5%nat).
Defined.

(** C6.  In every reachable state and after any number of Down keys the
    position is never past [len(_tmphist) - 1].  With the position at the
    last index of [_tmphist] the Down key does nothing; at any other
    position it increments the position by one and puts the entry of
    [_tmphist] at the new position into the command line.  (With the cursor
    inactive the Down key does nothing.) *)
Theorem key_down_clamps_at_last (st : state) :
  reachable st ->
  (forall (n : nat) (q : Z),
     let stn := Nat.iter n (exec key_down_handler) st in
     _histpos stn = Some q -> q <= Z.of_nat (length (tmphist stn)) - 1) /\
  match _histpos st with
  | None => key_down_handler st = (Return tt, st)
  | Some p =>
      let last_index := Z.of_nat (length (tmphist st)) - 1 in
      (p = last_index -> key_down_handler st = (Return tt, st)) /\
      (p <> last_index ->
       exists e, tmphist st !! Z.to_nat (p + 1) = Some e /\
         key_down_handler st =
         (Return tt, mk_state e (history st) (_tmphist st) (Some (p + 1)))) /\
      (forall n : nat,
         let stn := Nat.iter n (exec key_down_handler) st in
         tmphist stn = tmphist st /\
         _histpos stn = Some (Z.min (p + Z.of_nat n) last_index))
  end.
Proof.
  intros Hst. split.
  - intros n q stn Hq.
    assert (Hr : reachable stn) by (by apply (reachable_iter Key_Down)).
    by destruct (reachable_cursor_in_range _ Hr q Hq).
  - destruct (_histpos st) as [p|] eqn:Hp; [|by apply key_down_inactive].
    pose proof (reachable_cursor_in_range st Hst p Hp) as Hr.
    intros last_index. subst last_index. split_and!.
    + intros ->. by apply (key_down_edge st _ Hp).
    + intros Hne. apply key_down_step; [done | lia].
    + intros n. by apply iter_key_down.
Qed.

Lemma key_down_clamps_at_last_witness :
  let st := exec key_up_handler (exec key_up_handler logged_abc) in
  reachable st /\
  _histpos st = Some 1 /\
  text (exec key_down_handler st) = lit "c" /\
  _histpos (Nat.iter 4 (exec key_down_handler) st) = Some 2.
Proof.
  intros st.
  assert (Hr : reachable st).
  { apply (reachable_step Key_Up), (reachable_step Key_Up). by eexists. }
  split; [exact Hr|]. split; [reflexivity|].
  destruct (key_down_clamps_at_last st Hr) as [_ H].
  change (_histpos st) with (Some 1) in H. cbv zeta in H.
  destruct H as (_ & Hstep & Hn). split.
  - destruct Hstep as (e & He & E); [discriminate|].
    unfold exec. rewrite E. cbn [snd text].
    change (tmphist st !! Z.to_nat (1 + 1)) with (Some (lit "c")) in He.
    by injection He.
  - exact (proj2 (Hn 4%nat)).
Defined.

(** C7, counterexample.  With ":a" in the log and "x" typed, no entry
    starts with the input, the view to build is empty, and yet both
    [_histbrowse_start] and the Up key change the state (the position
    becomes -1). *)
Lemma start_on_empty_view_changes_state :
  let st := run [textEdited (lit ":a"); returnPressed; textEdited (lit "x")] init in
  reachable st /\
  browse_view (history st) (strip (text st)) = [] /\
  exec _histbrowse_start st <> st /\
  exec key_up_handler st <> st.
Proof.
  split_and!; [by eexists | by vm_compute | |];
    intros E; apply (f_equal _histpos) in E; vm_compute in E; discriminate E.
Qed.

(** C7, amended.  In every reachable state each browsing operation
    ([_histbrowse_start], the Up key, the Down key, [_histbrowse_stop])
    returns without raising, and every subscript it evaluates is a valid
    index: an Up or a Down key either changes nothing, or (Up only) starts
    on an empty view, or shows the entry at a position within
    [0 .. len(_tmphist) - 1].  With the cursor at an edge, or set on an
    empty [_tmphist], the Up and the Down key leave the state as it is, and
    so does the Down key with the cursor inactive.  Starting on an empty
    view is not quite a no-op: it leaves the log and the input text alone
    and shows nothing, but sets the position to -1; [_histbrowse_stop]
    only resets the position. *)
Theorem browsing_never_raises (st : state) :
  reachable st ->
  (result _histbrowse_start st = Return tt /\
   result key_up_handler st = Return tt /\
   result key_down_handler st = Return tt /\
   result _histbrowse_stop st = Return tt) /\
  (exec key_up_handler st = st \/
   (_histpos st = None /\ tmphist (exec key_up_handler st) = [] /\
    text (exec key_up_handler st) = text st) \/
   shows_entry (exec key_up_handler st)) /\
  (exec key_down_handler st = st \/ shows_entry (exec key_down_handler st)) /\
  (forall p : Z, _histpos st = Some p ->
     (p <= 0 -> key_up_handler st = (Return tt, st)) /\
     (Z.of_nat (length (tmphist st)) - 1 <= p ->
      key_down_handler st = (Return tt, st)) /\
     (tmphist st = [] ->
      key_up_handler st = (Return tt, st) /\
      key_down_handler st = (Return tt, st))) /\
  (_histpos st = None -> key_down_handler st = (Return tt, st)) /\
  (browse_view (history st) (strip (text st)) = [] ->
   exec _histbrowse_start st =
     mk_state (text st) (history st)
       (_tmphist (exec _histbrowse_start st)) (Some (-1)) /\
   tmphist (exec _histbrowse_start st) = [] /\
   (_histpos st = None -> exec key_up_handler st = exec _histbrowse_start st)) /\
  exec _histbrowse_stop st =
    mk_state (text st) (history st) (_tmphist st) None.
Proof.
  intros Hst. pose proof (reachable_cursor_in_range st Hst) as Hrange.
  assert (Hup : result key_up_handler st = Return tt /\
                (exec key_up_handler st = st \/
                 (_histpos st = None /\ tmphist (exec key_up_handler st) = [] /\
                  text (exec key_up_handler st) = text st) \/
                 shows_entry (exec key_up_handler st))).
  { unfold result, exec. destruct (_histpos st) as [p|] eqn:Hp.
    - destruct (Z.le_gt_cases p 0).
      + rewrite (key_up_edge st p) by done. by split; [|left].
      + destruct (key_up_step st p) as (e & He & ->);
          [done | specialize (Hrange p Hp); lia |].
        split; [done|]. right. right. exists (p - 1), e. cbn [snd].
        apply lookup_lt_Some in He as Hlt. unfold tmphist in *.
        split_and!; [done | cbn; lia | cbn; lia | done | done].
    - rewrite key_up_inactive by done. split; [done|]. right. cbn [snd].
      destruct (started_fields st) as (Htext & Hhist & Htmp & Hpos).
      destruct (last (tmphist (started st))) as [e|] eqn:Hl.
      + right. exists (Z.of_nat (length (tmphist (started st))) - 1), e.
        unfold exec, setText, modify. cbn [snd]. unfold tmphist in *.
        cbn [_tmphist history _histpos text].
        rewrite last_lookup in Hl. apply lookup_lt_Some in Hl as Hlt.
        split_and!; [by rewrite Hpos, <- Htmp | lia | lia | | done].
        by replace (Z.to_nat _) with (pred (length
          match _tmphist (started st) with
          | the_history => history (started st)
          | own_list l => l
          end)) by lia.
      + left. apply last_None in Hl. by rewrite Htext. }
  assert (Hdown : result key_down_handler st = Return tt /\
                  (exec key_down_handler st = st \/
                   shows_entry (exec key_down_handler st))).
  { unfold result, exec. destruct (_histpos st) as [p|] eqn:Hp.
    - destruct (Z.le_gt_cases (Z.of_nat (length (tmphist st)) - 1) p).
      + rewrite (key_down_edge st p) by done. by split; [|left].
      + destruct (key_down_step st p) as (e & He & ->);
          [done | specialize (Hrange p Hp); lia |].
        split; [done|]. right. exists (p + 1), e. cbn [snd].
        apply lookup_lt_Some in He as Hlt. unfold tmphist in *.
        specialize (Hrange p Hp).
        split_and!; [done | cbn; lia | cbn; lia | done | done].
    - rewrite key_down_inactive by done. by split; [|left]. }
  split_and!; try tauto.
  - unfold result. by rewrite histbrowse_start_eq.
  - intros p Hp. split_and!.
    + by apply key_up_edge.
    + by apply key_down_edge.
    + intros Hempty. specialize (Hrange p Hp). rewrite Hempty in Hrange.
      simpl in Hrange. split.
      * apply (key_up_edge st p Hp). lia.
      * apply (key_down_edge st p Hp). rewrite Hempty. simpl. lia.
  - apply key_down_inactive.
  - intros Hv. destruct (started_empty_view st Hv) as (Ht & Hp & Htext & Hh).
    unfold started in *. split_and!; [|done|].
    + destruct (exec _histbrowse_start st) as [t h r q]. cbn in *. by subst.
    + intros Hnone. unfold exec at 1. rewrite key_up_inactive by done.
      unfold started. by rewrite Ht.
Qed.

Lemma browsing_never_raises_witness :
  reachable init /\
  result key_up_handler init = Return tt /\
  result key_down_handler init = Return tt.
Proof.
  split; [by exists []|].
  destruct (browsing_never_raises init reachable_init)
    as ((_ & Hup & Hdown & _) & _).
  split; [exact Hup | exact Hdown].
Defined.

(** ** Submitting an empty line *)

(** C9.  [process_cmdline] on an empty input text, with the log empty or
    ending in a non-empty entry, appends the empty string to the log,
    clears the line, and then raises [IndexError] at [text[0]]. *)
Theorem process_cmdline_empty_text_raises (st : state) :
  text st = [] ->
  history st = [] \/ last (history st) <> Some [] ->
  process_cmdline st =
  (Raise IndexError, mk_state [] (history st ++ [[]]) (_tmphist st) None).
Proof.
  intros Ht Hlog. unfold process_cmdline. unfold_monad.
  unfold _histbrowse_stop, set_histpos, modify. rewrite record_eq.
  cbn [text history _tmphist _histpos]. rewrite Ht.
  unfold recorded. rewrite decide_True by done.
  unfold setText, modify. by rewrite getitem_empty.
Qed.

Lemma process_cmdline_empty_text_raises_witness :
  text init = [] /\
  (history init = [] \/ last (history init) <> Some []) /\
  process_cmdline init =
  (Raise IndexError, mk_state [] [[]] (own_list []) None).
Proof.
  split; [reflexivity|]. split; [by left|].
  exact (process_cmdline_empty_text_raises init eq_refl (or_introl eq_refl)).
Defined.

(** ** The validator *)

Lemma existsb_startswith_prefix_of (startchars : list str) (string : str) :
  existsb (fun c => startswith string c) startchars = true <->
  exists c, c ∈ startchars /\ c `prefix_of` string.
Proof.
  rewrite existsb_exists. split; intros (c & Hc & Hs); exists c.
  - split; [by apply list_elem_of_In | by apply startswith_prefix_of].
  - split; [by apply list_elem_of_In | by apply startswith_prefix_of].
Qed.

(** C8.  [validate] returns the string and the cursor position as they
    came, with [Acceptable] exactly when the string starts with one of the
    items of [startchars] and [Invalid] otherwise (never [Intermediate]).
    When [startchars] is a [str], that is: exactly when the string is not
    empty and its first character is one of the start characters. *)
Theorem validate_accepts_start_characters :
  forall (startchars : list str) (string : str) (pos : Z),
    let starts := exists c, c ∈ startchars /\ c `prefix_of` string in
    exists status,
      CommandValidator.validate startchars string pos = (status, string, pos) /\
      (status = CommandValidator.Acceptable <-> starts) /\
      (status = CommandValidator.Invalid <-> ~ starts) /\
      (forall chars : str,
         startchars = CommandValidator.items chars ->
         (starts <-> exists c rest, c ∈ chars /\ string = c :: rest)).
Proof.
  intros startchars string pos starts.
  pose proof (existsb_startswith_prefix_of startchars string) as Hex.
  fold starts in Hex. unfold CommandValidator.validate.
  assert (Hstr : forall chars : str,
            startchars = CommandValidator.items chars ->
            (starts <-> exists c rest, c ∈ chars /\ string = c :: rest)).
  { intros chars ->. unfold starts, CommandValidator.items. split.
    - intros (c & Hc & rest & ->). apply list_elem_of_In, in_map_iff in Hc.
      destruct Hc as (d & <- & Hd). exists d, rest.
      split; [by apply list_elem_of_In | done].
    - intros (c & rest & Hc & ->). exists [c]. split; [|by exists rest].
      apply list_elem_of_In, in_map_iff. exists c.
      split; [done | by apply list_elem_of_In]. }
  destruct (existsb _ startchars).
  - exists CommandValidator.Acceptable. split_and!; [done | | | done].
    + split; [intros _; by apply Hex | done].
    + split; [done | intros Hn; destruct Hn; by apply Hex].
  - exists CommandValidator.Invalid.
    assert (~ starts) by (intros Hs; apply Hex in Hs; discriminate).
    split_and!; [done | | | done].
    + split; [done | tauto].
    + split; [done | done].
Qed.

(** C10.  Whatever the label shows and whatever the message, [set_error]
    shows the message, and [clear_error] right after it shows the earlier
    text again; neither raises. *)
Theorem set_error_clear_error_roundtrip :
  forall (st : Text.state) (msg : str),
    Text.text (exec (Text.set_error msg) st) = msg /\
    Text.text (exec (Text.set_error msg ;; Text.clear_error) st) = Text.text st /\
    Text.text (exec Text.clear_error (exec (Text.set_error msg) st)) = Text.text st /\
    result (Text.set_error msg ;; Text.clear_error) st = Return tt.
Proof. intros [t old] msg. by split_and!. Qed.

(** ** More about the log and the browsing session *)

Module BrowseFacts.
Import Command CommandFacts HistoryFacts StepFacts.

Lemma recorded_prefix (log : list str) (entry : str) :
  log `prefix_of` recorded log entry.
Proof. unfold recorded. case_decide; [by apply prefix_app_r | done]. Qed.

Lemma recorded_last (log : list str) (entry : str) :
  last (recorded log entry) = Some entry.
Proof.
  unfold recorded. case_decide as Hd; [by rewrite last_snoc|].
  destruct (decide (last log = Some entry)) as [|Hne]; [done|].
  destruct Hd. by right.
Qed.

Lemma exec_returnPressed (st : state) :
  exec (handle returnPressed) st = exec process_cmdline st.
Proof.
  cbn [handle]. unfold exec, bind.
  by destruct (process_cmdline st) as [[o|e] st'].
Qed.

Lemma run_cons (ev : event) (evs : list event) (st : state) :
  run (ev :: evs) st = run evs (exec (handle ev) st).
Proof. done. Qed.

Lemma state_eta (st : state) :
  st = mk_state (text st) (history st) (_tmphist st) (_histpos st).
Proof. by destruct st. Qed.

(** The Up key while browsing: one entry back, stopping at the first. *)
Lemma key_up_browsing (st : state) (view : list str) (p : Z) :
  browsing_at st view p ->
  browsing_at (exec key_up_handler st) view (Z.max (p - 1) 0) /\
  history (exec key_up_handler st) = history st /\
  _tmphist (exec key_up_handler st) = _tmphist st.
Proof.
  intros (Hv & Hp & Hr & Hl). unfold exec.
  destruct (Z.le_gt_cases p 0).
  - rewrite (key_up_edge st p) by done. cbn [snd].
    replace (Z.max (p - 1) 0) with p by lia. done.
  - destruct (key_up_step st p) as (e & He & ->); [done | rewrite Hv; lia |].
    cbn [snd]. replace (Z.max (p - 1) 0) with (p - 1) by lia.
    split; [|done]. unfold browsing_at, tmphist in *. cbn.
    rewrite Hv in He. split_and!; [done | done | lia | lia | done].
Qed.

(** The Down key while browsing: one entry forward, stopping at the last. *)
Lemma key_down_browsing (st : state) (view : list str) (p : Z) :
  browsing_at st view p ->
  browsing_at (exec key_down_handler st) view
    (Z.min (p + 1) (Z.of_nat (length view) - 1)) /\
  history (exec key_down_handler st) = history st /\
  _tmphist (exec key_down_handler st) = _tmphist st.
Proof.
  intros (Hv & Hp & Hr & Hl). unfold exec.
  destruct (Z.le_gt_cases (Z.of_nat (length view) - 1) p).
  - rewrite (key_down_edge st p) by (by rewrite ?Hv). cbn [snd].
    replace (Z.min _ _) with p by lia. done.
  - destruct (key_down_step st p) as (e & He & ->); [done | rewrite Hv; lia |].
    cbn [snd]. replace (Z.min _ _) with (p + 1) by lia.
    split; [|done]. unfold browsing_at, tmphist in *. cbn.
    rewrite Hv in He. split_and!; [done | done | lia | lia | done].
Qed.

(** The Up key with the cursor inactive. *)
Lemma key_up_from_inactive (st : state) :
  _histpos st = None ->
  let view := browse_view (history st) (strip (text st)) in
  history (exec key_up_handler st) = history st /\
  tmphist (exec key_up_handler st) = view /\
  (view = [] -> exec key_up_handler st = started st) /\
  (view <> [] ->
   browsing_at (exec key_up_handler st) view (Z.of_nat (length view) - 1)).
Proof.
  intros Hp view. unfold exec. rewrite key_up_inactive by done. cbn [snd].
  destruct (started_fields st) as (Htext & Hhist & Htmp & Hpos).
  fold view in Htmp, Hpos. rewrite Htmp.
  destruct (last view) as [e|] eqn:Hl.
  - unfold exec, setText, modify. cbn [snd]. split_and!.
    + done.
    + unfold tmphist in *. by cbn.
    + intros ->. discriminate.
    + intros _. rewrite last_lookup in Hl. apply lookup_lt_Some in Hl as Hlt.
      unfold browsing_at, tmphist in *. cbn.
      split_and!; [done | done | lia | lia |].
      by replace (Z.to_nat _) with (pred (length view)) by lia.
  - apply last_None in Hl. by split_and!.
Qed.

Lemma run_arrows_browsing (keys : list event) (st : state)
    (view : list str) (p : Z) :
  Forall is_arrow_key keys -> browsing_at st view p ->
  exists q, browsing_at (run keys st) view q /\
            history (run keys st) = history st.
Proof.
  intros Hkeys. revert st p.
  induction Hkeys as [|ev keys Hev _ IH]; intros st p Hb; [by exists p|].
  rewrite run_cons. destruct Hev as [-> | ->]; cbn [handle].
  - destruct (key_up_browsing st view p Hb) as (Hb' & Hh & _).
    destruct (IH _ _ Hb') as (q & Hq & Hhq). exists q. by rewrite Hhq.
  - destruct (key_down_browsing st view p Hb) as (Hb' & Hh & _).
    destruct (IH _ _ Hb') as (q & Hq & Hhq). exists q. by rewrite Hhq.
Qed.

Lemma iter_key_up_browsing (n : nat) (st : state) (view : list str) (p : Z) :
  browsing_at st view p ->
  browsing_at (Nat.iter n (exec key_up_handler) st) view
    (Z.max (p - Z.of_nat n) 0).
Proof.
  intros Hb. induction n as [|n IH].
  - simpl. destruct Hb as (? & ? & ? & ?).
    by replace (Z.max (p - Z.of_nat 0) 0) with p by lia.
  - rewrite Nat.iter_succ.
    destruct (key_up_browsing _ _ _ IH) as (Hb' & _).
    by replace (Z.max (p - Z.of_nat (S n)) 0)
      with (Z.max (Z.max (p - Z.of_nat n) 0 - 1) 0) by lia.
Qed.

Lemma process_cmdline_result (st : state) :
  result process_cmdline st =
  match text st with
  | [] => Raise IndexError
  | c :: _ =>
      Return (match dict_get signals [c] with
              | Some sig => Some (sig, lstrip (text st) [c])
              | None => None
              end)
  end.
Proof.
  unfold process_cmdline. unfold_monad.
  unfold _histbrowse_stop, set_histpos, modify. rewrite record_eq.
  cbn [text history _tmphist _histpos]. unfold setText, modify.
  destruct (text st) as [|c rest] eqn:Ht.
  - by rewrite getitem_empty.
  - change (getitem (c :: rest) 0) with (Return (A:=char) c). cbv iota beta.
    by destruct (dict_get signals [c]).
Qed.

Lemma dict_get_signals (k : str) (sig : signal) :
  dict_get signals k = Some sig ->
  (k = lit ":" /\ sig = got_cmd) \/
  (k = lit "/" /\ sig = got_search) \/
  (k = lit "?" /\ sig = got_search_rev).
Proof.
  unfold signals. cbn [dict_get]. repeat case_bool_decide; naive_solver.
Qed.

End BrowseFacts.

Import BrowseFacts.

(** ** Further properties of [Command] *)

Module ViewFacts.
Import Command CommandFacts HistoryFacts StepFacts BrowseFacts.

Lemma recorded_sublist (l log : list str) (entry : str) :
  l `sublist_of` log -> l `sublist_of` recorded log entry.
Proof. unfold recorded. case_decide; [apply sublist_inserts_r | done]. Qed.

Lemma handle_view_sublist (ev : event) (st : state) :
  reachable st ->
  tmphist st `sublist_of` history st ->
  tmphist (exec (handle ev) st) `sublist_of` history (exec (handle ev) st).
Proof.
  intros Hst Hsub. pose proof (reachable_cursor_in_range st Hst) as Hrange.
  destruct ev.
  - rewrite exec_returnPressed, process_cmdline_state.
    unfold tmphist in *. cbn. destruct (_tmphist st); [done|].
    by apply recorded_sublist.
  - done.
  - cbn [handle]. destruct (_histpos st) as [p|] eqn:Hp.
    + specialize (Hrange p Hp). destruct (Z.le_gt_cases p 0).
      * unfold exec. by rewrite (key_up_edge st p).
      * destruct (key_up_step st p) as (e & _ & E); [done | lia |].
        unfold exec. by rewrite E.
    + destruct (key_up_from_inactive st Hp) as (-> & -> & _).
      apply browse_view_sublist.
  - cbn [handle]. destruct (_histpos st) as [p|] eqn:Hp.
    + specialize (Hrange p Hp).
      destruct (Z.le_gt_cases (Z.of_nat (length (tmphist st)) - 1) p).
      * unfold exec. by rewrite (key_down_edge st p).
      * destruct (key_down_step st p) as (e & _ & E); [done | lia |].
        unfold exec. by rewrite E.
    + unfold exec. by rewrite key_down_inactive.
  - done.
  - done.
  - by destruct reason.
  - cbn [handle]. unfold exec. rewrite record_eq.
    unfold tmphist in *. cbn. destruct (_tmphist st); [done|].
    by apply recorded_sublist.
Qed.

Lemma reachable_view_sublist (st : state) :
  reachable st -> tmphist st `sublist_of` history st.
Proof.
  revert st.
  apply (reachable_ind (fun st => tmphist st `sublist_of` history st));
    [done|].
  intros ev st' Hst' IH. by apply handle_view_sublist.
Qed.

Lemma handle_history_prefix (ev : event) (st : state) :
  history st `prefix_of` history (exec (handle ev) st).
Proof.
  destruct (handle_history ev st) as [->|[entry ->]];
    [done | apply recorded_prefix].
Qed.

Lemma arrow_key_history (ev : event) (st : state) :
  is_arrow_key ev -> history (exec (handle ev) st) = history st.
Proof.
  intros [-> | ->]; cbn [handle].
  - destruct (_histpos st) as [p|] eqn:Hp.
    + unfold exec, key_up_handler, bind at 1, gets. rewrite Hp.
      destruct (p <=? 0); [done|].
      unfold key_up_show. unfold_setters. unfold_monad.
      cbn [_histpos]. destruct (truthy (tmphist _)); cbn [negb]; [|done].
      by destruct (getitem_obj _ _).
    + by destruct (key_up_from_inactive st Hp) as (-> & _).
  - unfold key_down_handler, exec, bind, gets.
    destruct (_histpos st) as [p|]; [|done].
    destruct (_ || _); [done|].
    unfold_setters. unfold_monad. cbn [_histpos].
    by destruct (getitem_obj _ _).
Qed.

End ViewFacts.

Import ViewFacts.

(** X1.  The log is append-only: whatever the events, the log before is a
    prefix of the log after; entries are never removed, reordered or
    rewritten, and the Up and Down keys leave the log as it is. *)
Theorem history_is_append_only :
  forall (evs : list event) (st : state),
    history st `prefix_of` history (run evs st) /\
    (Forall is_arrow_key evs -> history (run evs st) = history st).
Proof.
  intros evs st. split.
  - induction evs as [|ev evs IH] using rev_ind; [done|].
    rewrite run_snoc. etrans; [exact IH | apply handle_history_prefix].
  - intros Hkeys. revert st.
    induction Hkeys as [|ev evs Hev _ IH]; intros st; [done|].
    rewrite run_cons, IH. by apply arrow_key_history.
Qed.

(** X2.  In every reachable state the list being browsed is a subsequence
    of the log, so an Up or a Down key either leaves the command line as it
    is or puts an entry of the log into it. *)
Theorem browsing_shows_only_logged_entries (st : state) :
  reachable st ->
  tmphist st `sublist_of` history st /\
  (forall ev, is_arrow_key ev ->
     text (exec (handle ev) st) = text st \/
     text (exec (handle ev) st) ∈ history st).
Proof.
  intros Hst. pose proof (reachable_view_sublist st Hst) as Hsub.
  pose proof (reachable_cursor_in_range st Hst) as Hrange.
  split; [done|]. intros ev [-> | ->]; cbn [handle].
  - destruct (_histpos st) as [p|] eqn:Hp.
    + specialize (Hrange p Hp). destruct (Z.le_gt_cases p 0).
      * left. unfold exec. by rewrite (key_up_edge st p).
      * destruct (key_up_step st p) as (e & He & E); [done | lia |].
        right. unfold exec. rewrite E. cbn.
        eapply sublist_subseteq; [exact Hsub|].
        by eapply list_elem_of_lookup_2.
    + destruct (key_up_from_inactive st Hp) as (_ & _ & Hempty & Hview).
      destruct (decide (browse_view (history st) (strip (text st)) = []))
        as [Hv|Hv].
      * left. rewrite (Hempty Hv). by destruct (started_fields st).
      * right. destruct (Hview Hv) as (_ & _ & _ & Hl).
        eapply sublist_subseteq; [apply browse_view_sublist|].
        by eapply list_elem_of_lookup_2.
  - destruct (_histpos st) as [p|] eqn:Hp.
    + specialize (Hrange p Hp).
      destruct (Z.le_gt_cases (Z.of_nat (length (tmphist st)) - 1) p).
      * left. unfold exec. by rewrite (key_down_edge st p).
      * destruct (key_down_step st p) as (e & He & E); [done | lia |].
        right. unfold exec. rewrite E. cbn.
        eapply sublist_subseteq; [exact Hsub|].
        by eapply list_elem_of_lookup_2.
    + left. unfold exec. by rewrite key_down_inactive.
Qed.

Lemma browsing_shows_only_logged_entries_witness :
  reachable logged_abc /\
  (text (exec key_up_handler logged_abc) = text logged_abc \/
   text (exec key_up_handler logged_abc) ∈ history logged_abc).
Proof.
  assert (Hr : reachable logged_abc) by (by eexists).
  split; [exact Hr|].
  exact (proj2 (browsing_shows_only_logged_entries logged_abc Hr)
           Key_Up (or_introl eq_refl)).
Defined.

(** X3.  [process_cmdline] raises exactly when the input text is empty, and
    then it is [IndexError]; it returns without emitting exactly when the
    text starts with a character other than ":", "/" and "?".  Either way
    the command line is empty and the cursor inactive afterwards, and
    [_tmphist] is left as it was. *)
Theorem process_cmdline_raises_iff_empty :
  forall st : state,
    (result process_cmdline st = Raise IndexError <-> text st = []) /\
    (forall e, result process_cmdline st = Raise e -> e = IndexError) /\
    (result process_cmdline st = Return None <->
     exists c rest, text st = c :: rest /\ c ∉ [58%N; 47%N; 63%N]) /\
    text (exec process_cmdline st) = [] /\
    _histpos (exec process_cmdline st) = None /\
    _tmphist (exec process_cmdline st) = _tmphist st.
Proof.
  intros st. rewrite process_cmdline_state, process_cmdline_result.
  split_and!; try done.
  - destruct (text st); [done | split; discriminate].
  - intros e. destruct (text st); [by intros [= <-] | discriminate].
  - destruct (text st) as [|c rest]; [split; [discriminate | by intros (? & ? & ? & _)]|].
    split.
    + intros E. exists c, rest. split; [done|]. intros Hin.
      assert (Hs : is_Some (dict_get signals [c])).
      { repeat (apply elem_of_cons in Hin as [->|Hin]);
          [by eexists.. | by apply elem_of_nil in Hin]. }
      destruct Hs as [sig Hs]. rewrite Hs in E. discriminate.
    + intros (c' & rest' & [= <- <-] & Hc).
      destruct (dict_get signals [c]) as [sig|] eqn:Hsig; [|done].
      apply dict_get_signals in Hsig. exfalso. apply Hc.
      destruct Hsig as [[[= ->] _]|[[[= ->] _]|[[= ->] _]]];
        rewrite !elem_of_cons; auto.
Qed.

(** X4.  When [process_cmdline] emits a signal, the input text is the
    start character ":", "/" or "?" repeated one or more times, followed by
    the argument emitted; the argument does not begin with that character
    (every leading copy is stripped, not only the first), and the signal is
    [got_cmd], [got_search] or [got_search_rev] accordingly. *)
Theorem process_cmdline_emits_stripped_text (st : state)
    (sig : signal) (arg : str) :
  result process_cmdline st = Return (Some (sig, arg)) ->
  exists (c : char) (k : nat),
    (1 <= k)%nat /\
    text st = replicate k c ++ arg /\
    head arg <> Some c /\
    (([c] = lit ":" /\ sig = got_cmd) \/
     ([c] = lit "/" /\ sig = got_search) \/
     ([c] = lit "?" /\ sig = got_search_rev)).
Proof.
  rewrite process_cmdline_result.
  destruct (text st) as [|c rest] eqn:Ht; [discriminate|].
  destruct (dict_get signals [c]) as [sig'|] eqn:Hsig; [|discriminate].
  intros [= -> <-]. apply dict_get_signals in Hsig.
  unfold lstrip.
  set (p := fun d : char => existsb (N.eqb d) [c]).
  destruct (lstrip_by_split p (c :: rest)) as (l & Hl & Hall & Hhead).
  assert (Hp : forall d, p d = true <-> d = c).
  { intros d. unfold p. cbn [existsb]. rewrite orb_false_r. apply N.eqb_eq. }
  exists c, (length l). split_and!; [| |  | done].
  - destruct l as [|d l]; [|simpl; lia]. exfalso.
    cbn [app] in Hl. rewrite <- Hl in Hhead.
    specialize (Hhead c eq_refl). by rewrite (proj2 (Hp c)) in Hhead.
  - rewrite Hl at 1. f_equal. symmetry. apply replicate_as_Forall.
    split; [done|]. eapply Forall_impl; [exact Hall|].
    intros d Hd. symmetry. by apply Hp.
  - intros Hc. specialize (Hhead c Hc). by rewrite (proj2 (Hp c)) in Hhead.
Qed.

Lemma process_cmdline_emits_stripped_text_witness :
  let st := exec (setText (lit "::open x")) init in
  result process_cmdline st = Return (Some (got_cmd, lit "open x")) /\
  exists (c : char) (k : nat),
    (1 <= k)%nat /\
    text st = replicate k c ++ lit "open x" /\
    head (lit "open x") <> Some c /\
    (([c] = lit ":" /\ got_cmd = got_cmd) \/
     ([c] = lit "/" /\ got_cmd = got_search) \/
     ([c] = lit "?" /\ got_cmd = got_search_rev)).
Proof.
  intros st. split; [reflexivity|].
  exact (process_cmdline_emits_stripped_text st got_cmd (lit "open x") eq_refl).
Defined.

(** X5.  The validator is what keeps [process_cmdline] from raising: when
    no item of [startchars] is empty, a text the validator accepts makes
    [process_cmdline] return; and when every item of [startchars] is a key
    of [signals], an accepted text makes it emit a signal. *)
Theorem validator_guards_process_cmdline
    (startchars : list str) (st : state) (pos : Z) :
  (forall c, c ∈ startchars -> c <> []) ->
  (CommandValidator.validate startchars (text st) pos).1.1 =
    CommandValidator.Acceptable ->
  (exists o, result process_cmdline st = Return o) /\
  ((forall c, c ∈ startchars -> is_Some (dict_get signals c)) ->
   exists sig arg, result process_cmdline st = Return (Some (sig, arg))).
Proof.
  intros Hne Hacc. unfold CommandValidator.validate in Hacc.
  destruct (existsb _ startchars) eqn:Hex; [|discriminate].
  apply existsb_startswith_prefix_of in Hex as (c & Hc & rest & Ht).
  rewrite process_cmdline_result.
  destruct c as [|d c]; [by destruct (Hne [] Hc)|].
  rewrite Ht. cbn [app]. split; [by eexists|].
  intros Hkeys. destruct (Hkeys _ Hc) as [sig Hsig].
  assert (c = []) as ->.
  { apply dict_get_signals in Hsig.
    by destruct Hsig as [[[= _ ->] _]|[[[= _ ->] _]|[[= _ ->] _]]]. }
  rewrite Hsig. by eexists _, _.
Qed.

Lemma validator_guards_process_cmdline_witness :
  let startchars := CommandValidator.items (lit ":/?") in
  let st := exec (setText (lit "/needle")) init in
  (forall c, c ∈ startchars -> c <> []) /\
  (CommandValidator.validate startchars (text st) 7).1.1 =
    CommandValidator.Acceptable /\
  exists o, result process_cmdline st = Return o.
Proof.
  intros startchars st.
  assert (Hne : forall c, c ∈ startchars -> c <> []).
  { intros c Hc. apply list_elem_of_In, in_map_iff in Hc.
    by destruct Hc as (d & <- & _). }
  split; [exact Hne|]. split; [reflexivity|].
  exact (proj1 (validator_guards_process_cmdline startchars st 7 Hne eq_refl)).
Defined.

(** X6.  Typing on never invalidates: a string the validator accepts stays
    accepted with anything appended, at any cursor position; and an
    accepted string is not empty unless the empty string is itself one of
    the start items. *)
Theorem validate_stable_under_typing
    (startchars : list str) (s : str) (pos : Z) :
  (CommandValidator.validate startchars s pos).1.1 =
    CommandValidator.Acceptable ->
  (forall (t : str) (pos' : Z),
     (CommandValidator.validate startchars (s ++ t) pos').1.1 =
       CommandValidator.Acceptable) /\
  (s <> [] \/ [] ∈ startchars).
Proof.
  unfold CommandValidator.validate. intros Hacc.
  destruct (existsb _ startchars) eqn:Hex; [|discriminate].
  apply existsb_startswith_prefix_of in Hex as (c & Hc & Hpre). split.
  - intros t pos'.
    assert (existsb (fun c => startswith (s ++ t) c) startchars = true) as ->; [|done].
    apply existsb_startswith_prefix_of. exists c.
    split; [done | by apply prefix_app_r].
  - destruct s as [|d s]; [|by left]. right.
    by apply prefix_nil_inv in Hpre as ->.
Qed.

Lemma validate_stable_under_typing_witness :
  (CommandValidator.validate (CommandValidator.items (lit ":/?")) (lit ":") 1).1.1 =
    CommandValidator.Acceptable /\
  (CommandValidator.validate (CommandValidator.items (lit ":/?")) (lit ":" ++ lit "quit") 5).1.1 =
    CommandValidator.Acceptable.
Proof.
  split; [reflexivity|].
  exact (proj1 (validate_stable_under_typing
                  (CommandValidator.items (lit ":/?")) (lit ":") 1 eq_refl)
           (lit "quit") 5).
Defined.

Module ArrowFacts.
Import Command CommandFacts HistoryFacts StepFacts BrowseFacts.

Lemma browsing_at_text (st st' : state) (view : list str) (p : Z) :
  browsing_at st view p -> browsing_at st' view p -> text st' = text st.
Proof. intros (_ & _ & _ & Hl) (_ & _ & _ & Hl'). congruence. Qed.

Lemma run_arrows_on_empty_view (keys : list event) (st : state) :
  Forall is_arrow_key keys ->
  tmphist st = [] -> _histpos st = Some (-1) ->
  run keys st = st.
Proof.
  intros Hkeys Hv Hp. induction Hkeys as [|ev keys Hev _ IH]; [done|].
  rewrite run_cons. destruct Hev as [-> | ->]; cbn [handle]; unfold exec.
  - by rewrite (key_up_edge st (-1)).
  - rewrite (key_down_edge st (-1)); [done | done | rewrite Hv; simpl; lia].
Qed.

Lemma state_ext (a b : state) :
  text a = text b -> history a = history b ->
  _tmphist a = _tmphist b -> _histpos a = _histpos b -> a = b.
Proof. destruct a, b. cbn. by intros -> -> -> ->. Qed.

Lemma run_nil (st : state) : run [] st = st.
Proof. done. Qed.

Lemma strip_nil : strip [] = [].
Proof. reflexivity. Qed.

Lemma browse_view_nil (log : list str) : browse_view log [] = log.
Proof. unfold browse_view. by rewrite decide_True. Qed.

End ArrowFacts.

Import ArrowFacts.

(** X7.  While browsing, with the command line showing the entry at the
    cursor, Up followed by Down gives back the very same state unless the
    cursor was on the first entry, and Down followed by Up does unless it
    was on the last. *)
Theorem key_up_key_down_roundtrip (st : state) (view : list str) (p : Z) :
  browsing_at st view p ->
  (0 < p -> exec key_down_handler (exec key_up_handler st) = st) /\
  (p < Z.of_nat (length view) - 1 ->
   exec key_up_handler (exec key_down_handler st) = st).
Proof.
  intros Hb. pose proof Hb as (Hv & Hp & Hr & Hl). split; intros Hedge.
  - destruct (key_up_browsing st view p Hb) as (Hb1 & Hh1 & Ht1).
    destruct (key_down_browsing _ view _ Hb1) as (Hb2 & Hh2 & Ht2).
    replace (Z.min (Z.max (p - 1) 0 + 1) (Z.of_nat (length view) - 1))
      with p in Hb2 by lia.
    apply state_ext;
      [exact (browsing_at_text _ _ _ _ Hb Hb2) | by rewrite Hh2
      | by rewrite Ht2 | destruct Hb2 as (_ & -> & _); by rewrite Hp].
  - destruct (key_down_browsing st view p Hb) as (Hb1 & Hh1 & Ht1).
    destruct (key_up_browsing _ view _ Hb1) as (Hb2 & Hh2 & Ht2).
    replace (Z.max (Z.min (p + 1) (Z.of_nat (length view) - 1) - 1) 0)
      with p in Hb2 by lia.
    apply state_ext;
      [exact (browsing_at_text _ _ _ _ Hb Hb2) | by rewrite Hh2
      | by rewrite Ht2 | destruct Hb2 as (_ & -> & _); by rewrite Hp].
Qed.

Lemma key_up_key_down_roundtrip_witness :
  let st := exec key_up_handler (exec key_up_handler logged_abc) in
  browsing_at st [lit "a"; lit "b"; lit "c"] 1 /\
  exec key_down_handler (exec key_up_handler st) = st /\
  exec key_up_handler (exec key_down_handler st) = st.
Proof.
  intros st.
  assert (Hb : browsing_at st [lit "a"; lit "b"; lit "c"] 1).
  { unfold browsing_at. split_and!; [reflexivity | reflexivity | lia | simpl; lia
                                     | reflexivity]. }
  split; [exact Hb|].
  destruct (key_up_key_down_roundtrip st _ 1 Hb) as [Hud Hdu].
  split; [apply Hud; lia | apply Hdu; simpl; lia].
Defined.

(** X8.  A browsing session keeps the prefix it was started with.  When
    the Up key starts browsing and any number of Up and Down keys follow,
    the view stays the one built from the text typed before, the log is
    untouched, and the command line holds an entry of that view, which
    starts with the trimmed text typed before; with an empty view the
    command line keeps the typed text. *)
Theorem browsing_keeps_typed_prefix (st : state) (keys : list event) :
  _histpos st = None ->
  Forall is_arrow_key keys ->
  let pre := strip (text st) in
  let view := browse_view (history st) pre in
  let st' := run (Key_Up :: keys) st in
  history st' = history st /\
  tmphist st' = view /\
  (view = [] -> text st' = text st) /\
  (view <> [] -> text st' ∈ view /\ pre `prefix_of` text st').
Proof.
  intros Hp Hkeys pre view st'. subst st'. rewrite run_cons. cbn [handle].
  destruct (key_up_from_inactive st Hp) as (Hh & Ht & Hempty & Hview).
  fold pre in Ht, Hempty, Hview. fold view in Ht, Hempty, Hview.
  destruct (decide (view = [])) as [Hv|Hv].
  - destruct (started_fields st) as (Htext & Hhist & Htmp & Hpos).
    fold pre in Htmp, Hpos. fold view in Htmp, Hpos.
    rewrite (Hempty Hv), run_arrows_on_empty_view;
      [| done | by rewrite Htmp | by rewrite Hpos, Hv].
    by split_and!.
  - destruct (run_arrows_browsing keys _ view _ Hkeys (Hview Hv))
      as (q & (Hvq & Hpq & Hrq & Hlq) & Hhq).
    split_and!; [by rewrite Hhq | done | done |].
    intros _. apply list_elem_of_lookup_2 in Hlq. split; [done|].
    unfold view, browse_view in Hlq. case_decide as Hpre.
    + rewrite Hpre. apply prefix_nil.
    + by apply list_elem_of_filter in Hlq as [? _].
Qed.

Lemma browsing_keeps_typed_prefix_witness :
  let st := exec (setText (lit " b")) logged_abc in
  _histpos st = None /\
  text (run [Key_Up; Key_Up; Key_Down; Key_Up] st) ∈ [lit "b"].
Proof.
  intros st. split; [reflexivity|].
  assert (Hkeys : Forall is_arrow_key [Key_Up; Key_Down; Key_Up]).
  { repeat constructor; (by left) || (by right). }
  destruct (browsing_keeps_typed_prefix st _ eq_refl Hkeys)
    as (_ & _ & _ & Hview).
  apply Hview. discriminate.
Defined.

(** X9.  The Up key walks the view from its newest entry to its oldest and
    stops there: when the cursor is inactive and the view to build is not
    empty, the command line after [n + 1] Up keys shows the view's entry at
    index [max (len(view) - 1 - n) 0]. *)
Theorem key_up_walks_back (st : state) (n : nat) :
  _histpos st = None ->
  browse_view (history st) (strip (text st)) <> [] ->
  let view := browse_view (history st) (strip (text st)) in
  browsing_at (Nat.iter n (exec key_up_handler) (exec key_up_handler st))
    view (Z.max (Z.of_nat (length view) - 1 - Z.of_nat n) 0).
Proof.
  intros Hp Hv view.
  destruct (key_up_from_inactive st Hp) as (_ & _ & _ & Hview).
  by apply iter_key_up_browsing, Hview.
Qed.

Lemma key_up_walks_back_witness :
  _histpos logged_abc = None /\
  text (Nat.iter 1 (exec key_up_handler) (exec key_up_handler logged_abc))
  = lit "b" /\
  text (Nat.iter 7 (exec key_up_handler) (exec key_up_handler logged_abc))
  = lit "a".
Proof.
  split; [reflexivity|].
  assert (Hv : browse_view (history logged_abc) (strip (text logged_abc)) <> [])
    by discriminate.
  split.
  - destruct (key_up_walks_back logged_abc 1 eq_refl Hv) as (_ & _ & _ & Hl).
    apply (inj Some). rewrite <- Hl. reflexivity.
  - destruct (key_up_walks_back logged_abc 7 eq_refl Hv) as (_ & _ & _ & Hl).
    apply (inj Some). rewrite <- Hl. reflexivity.
Defined.

(** X10.  A submitted line is the first thing the Up key brings back:
    after [process_cmdline] and one Up key the command line holds the text
    that was submitted, the log ends with it, and the cursor is on the
    last index of the log (also when the submission raised on an empty
    text). *)
Theorem submitted_line_recalled_by_up :
  forall st : state,
    let st' := run [returnPressed; Key_Up] st in
    text st' = text st /\
    last (history st') = Some (text st) /\
    tmphist st' = history st' /\
    _histpos st' = Some (Z.of_nat (length (history st')) - 1).
Proof.
  intros st st'. subst st'. rewrite !run_cons. cbn [run fold_left handle].
  rewrite exec_returnPressed, process_cmdline_state.
  set (st1 := mk_state _ _ _ _).
  destruct (key_up_from_inactive st1 eq_refl) as (Hh & Ht & _ & Hview).
  cbn [text history st1] in Ht, Hview, Hh.
  rewrite strip_nil, browse_view_nil in Ht, Hview.
  pose proof (recorded_last (history st) (text st)) as Hlast.
  assert (Hne : recorded (history st) (text st) <> []).
  { intros E. by rewrite E in Hlast. }
  destruct (Hview Hne) as (_ & Hp & _ & Hl).
  rewrite Hh, Ht. split_and!; [| done | done | done].
  replace (Z.to_nat _) with (pred (length (recorded (history st) (text st))))
    in Hl by lia.
  rewrite <- last_lookup, Hlast in Hl. by injection Hl.
Qed.

(** X11.  A view of the whole log is the log itself, not a copy; a
    filtered view is a snapshot.  When the Up key starts browsing on an
    input that trims to nothing and another [Command] instance then records
    an entry the log does not end with, the Down key shows that new entry.
    When the input trims to a prefix, the view built by the Up key stays
    the same after the other instance's entry, whatever the entry, and the
    Down key does nothing. *)
Theorem whole_log_view_is_live (st : state) (e : str) :
  _histpos st = None ->
  last (history st) <> Some e ->
  (strip (text st) = [] ->
   let st' := run [Key_Up; peer_returnPressed e; Key_Down] st in
   history st' = history st ++ [e] /\
   tmphist st' = history st ++ [e] /\
   text st' = e) /\
  (strip (text st) <> [] ->
   let st1 := run [Key_Up; peer_returnPressed e] st in
   history st1 = history st ++ [e] /\
   tmphist st1 = browse_view (history st) (strip (text st)) /\
   exec key_down_handler st1 = st1).
Proof.
  intros Hp Hlast.
  assert (Hrec : recorded (history st) e = history st ++ [e]).
  { unfold recorded. rewrite decide_True; [done | by right]. }
  split; intros Hpre.
  - intros st'. subst st'. rewrite !run_cons, run_nil. cbn [handle].
    assert (Hup : exists t1, exec key_up_handler st =
              mk_state t1 (history st) the_history
                (Some (Z.of_nat (length (history st)) - 1))).
    { unfold exec. rewrite key_up_inactive by done. cbn [snd].
      unfold started, exec. rewrite histbrowse_start_eq. cbn [snd].
      rewrite Hpre, browse_view_nil. cbn [truthy].
      destruct (last (tmphist _)); by eexists. }
    destruct Hup as [t1 ->]. set (st1 := mk_state _ _ _ _).
    assert (exec (record e) st1 =
            mk_state t1 (history st ++ [e]) the_history
              (Some (Z.of_nat (length (history st)) - 1))) as ->.
    { unfold exec. rewrite record_eq. cbn [snd st1 text history _tmphist _histpos].
      by rewrite Hrec. }
    clear st1. set (st2 := mk_state _ _ _ _).
    destruct (key_down_step st2 (Z.of_nat (length (history st)) - 1))
      as (e' & He' & E); [done | |].
    { unfold tmphist. cbn. rewrite length_app. simpl. lia. }
    unfold exec. rewrite E. cbn.
    unfold tmphist in He'. cbn in He'.
    replace (Z.to_nat _) with (length (history st) + 0)%nat in He' by lia.
    change (history st ++ [e]) with (history st ++ e :: []) in He'.
    rewrite list_lookup_middle in He' by lia. injection He' as <-.
    by split_and!.
  - intros st1. subst st1. rewrite !run_cons, run_nil. cbn [handle].
    destruct (key_up_from_inactive st Hp) as (Hh & Ht & _).
    assert (Hown : exists t1 l p, exec key_up_handler st =
              mk_state t1 (history st) (own_list l) (Some p) /\
              p = Z.of_nat (length l) - 1).
    { unfold exec. rewrite key_up_inactive by done. cbn [snd].
      unfold started, exec. rewrite histbrowse_start_eq. cbn [snd].
      destruct (strip (text st)) as [|c pre] eqn:Es; [done|]. cbn [truthy].
      rewrite comprehension_browse_view.
      destruct (last (tmphist _)); eexists _, _, _; (split; [reflexivity|]);
        unfold browse_view; by rewrite decide_False. }
    destruct Hown as (t1 & l & p & E & ->). rewrite E in Ht |- *.
    unfold tmphist in Ht. cbn in Ht. subst l.
    set (st1 := mk_state _ _ _ _).
    assert (exec (record e) st1 =
            mk_state t1 (history st ++ [e])
              (own_list (browse_view (history st) (strip (text st))))
              (Some (Z.of_nat (length (browse_view (history st) (strip (text st)))) - 1)))
      as ->.
    { unfold exec. rewrite record_eq. cbn [snd st1 text history _tmphist _histpos].
      by rewrite Hrec. }
    split_and!; [done | done |].
    unfold exec.
    by rewrite (key_down_edge _
      (Z.of_nat (length (browse_view (history st) (strip (text st)))) - 1)).
Qed.

Lemma whole_log_view_is_live_witness :
  _histpos logged_abc = None /\
  last (history logged_abc) <> Some (lit "d") /\
  text (run [Key_Up; peer_returnPressed (lit "d"); Key_Down] logged_abc)
  = lit "d".
Proof.
  split; [reflexivity|].
  assert (Hl : last (history logged_abc) <> Some (lit "d")) by discriminate.
  split; [exact Hl|].
  destruct (whole_log_view_is_live logged_abc (lit "d") eq_refl Hl) as [H _].
  exact (proj2 (proj2 (H eq_refl))).
Defined.

(** X12.  Losing the focus by a mouse click, Tab, Backtab or for an
    unspecified reason empties the command line and ends the browsing
    session, so that the next Up key browses the whole log and shows its
    newest entry; losing it for any other reason changes nothing. *)
Theorem focus_loss_resets_browsing :
  forall (st : state) (reason : FocusReason),
    let st1 := exec (focusOutEvent reason) st in
    (reason ∈ [MouseFocusReason; TabFocusReason; BacktabFocusReason;
               OtherFocusReason] ->
     st1 = mk_state [] (history st) (_tmphist st) None /\
     tmphist (exec key_up_handler st1) = history st /\
     text (exec key_up_handler st1) = default [] (last (history st))) /\
    (reason ∉ [MouseFocusReason; TabFocusReason; BacktabFocusReason;
               OtherFocusReason] ->
     st1 = st).
Proof.
  intros st reason st1.
  assert (Hclear : st1 = mk_state [] (history st) (_tmphist st) None ->
            tmphist (exec key_up_handler st1) = history st /\
            text (exec key_up_handler st1) = default [] (last (history st))).
  { intros ->. set (st2 := mk_state _ _ _ _).
    destruct (key_up_from_inactive st2 eq_refl) as (_ & Ht & Hempty & Hview).
    cbn [text history st2] in Ht, Hempty, Hview.
    rewrite strip_nil, browse_view_nil in Ht, Hempty, Hview.
    split; [done|]. destruct (history st) as [|e0 h] eqn:Hh.
    - by rewrite (Hempty eq_refl).
    - destruct (Hview ltac:(done)) as (_ & _ & _ & Hl).
      rewrite <- Hh in *.
      replace (Z.to_nat _) with (pred (length (history st))) in Hl by lia.
      rewrite <- last_lookup in Hl. by rewrite Hl. }
  split.
  - intros Hin. assert (st1 = mk_state [] (history st) (_tmphist st) None) as E.
    { subst st1. repeat (apply elem_of_cons in Hin as [->|Hin]);
        [done.. | by apply elem_of_nil in Hin]. }
    split; [done | by apply Hclear].
  - intros Hnot. subst st1.
    destruct reason; try (by destruct st); exfalso; apply Hnot;
      rewrite !elem_of_cons; auto.
Qed.

(** ** The labels *)

(** X13.  [Text] saves one text only.  An error shown while another error
    is still shown overwrites the saved text with the first message, so
    [clear_error] then brings back the first message and not the text from
    before the errors; and a second [clear_error] changes nothing. *)
Theorem second_error_overwrites_saved_text :
  forall (st : Text.state) (msg1 msg2 : str),
    Text.text (exec (Text.set_error msg1 ;; Text.set_error msg2 ;;
                     Text.clear_error) st) = msg1 /\
    exec Text.clear_error (exec Text.clear_error st) = exec Text.clear_error st /\
    exec (Text.set_error msg1 ;; Text.clear_error ;; Text.clear_error) st =
    exec (Text.set_error msg1 ;; Text.clear_error) st.
Proof. intros [t old] msg1 msg2. by split_and!. Qed.

(** X14.  Hovering a link and leaving it is a round trip on the [Url]
    label: [set_hover_url] with a non-empty link shows the link, and a
    following [set_hover_url] with an empty link shows the earlier text
    again, whatever title and text come along. *)
Theorem hover_unhover_roundtrip
    (st : Url.state) (link title1 text1 title2 text2 : str) :
  link <> [] ->
  Url.text (exec (Url.set_hover_url link title1 text1) st) = link /\
  Url.text (exec (Url.set_hover_url link title1 text1 ;;
                  Url.set_hover_url [] title2 text2) st) = Url.text st.
Proof. intros Hl. destruct st as [t old], link; by split_and!. Qed.

Lemma hover_unhover_roundtrip_witness :
  lit "http://a/" <> [] /\
  Url.text (exec (Url.set_hover_url (lit "http://a/") [] [] ;;
                  Url.set_hover_url [] [] [])
              (Url.mk_state (lit "http://page/") [])) = lit "http://page/".
Proof.
  split; [discriminate|].
  exact (proj2 (hover_unhover_roundtrip
                  (Url.mk_state (lit "http://page/") []) (lit "http://a/")
                  [] [] [] [] ltac:(discriminate))).
Defined.

(** X15.  The [Url] label saves one text only, taken at each hover.  After
    two links hovered in a row, leaving shows the first link, not the page
    URL; and a page URL set by [set_url] while a link is hovered is
    replaced, on leaving, by the text shown before the hover.  Leaving
    without a hover before shows the saved text, initially empty. *)
Theorem hover_saves_only_latest_text
    (st : Url.state) (link1 link2 title text_ : str) :
  link1 <> [] -> link2 <> [] ->
  Url.text (exec (Url.set_hover_url link1 title text_ ;;
                  Url.set_hover_url link2 title text_ ;;
                  Url.set_hover_url [] title text_) st) = link1 /\
  (forall (U : Type) (urlstring : U -> str) (u : U),
     Url.text (exec (Url.set_hover_url link1 title text_ ;;
                     Url.set_url urlstring u ;;
                     Url.set_hover_url [] title text_) st) = Url.text st) /\
  Url.text (exec (Url.set_hover_url [] title text_) st) = Url.old_url st.
Proof.
  intros H1 H2. destruct st as [t old], link1, link2; by split_and!.
Qed.

Lemma hover_saves_only_latest_text_witness :
  lit "http://a/" <> [] /\ lit "http://b/" <> [] /\
  Url.text (exec (Url.set_hover_url (lit "http://a/") [] [] ;;
                  Url.set_hover_url (lit "http://b/") [] [] ;;
                  Url.set_hover_url [] [] [])
              (Url.mk_state (lit "http://page/") [])) = lit "http://a/".
Proof.
  split; [discriminate|]. split; [discriminate|].
  exact (proj1 (hover_saves_only_latest_text
                  (Url.mk_state (lit "http://page/") [])
                  (lit "http://a/") (lit "http://b/") [] []
                  ltac:(discriminate) ltac:(discriminate))).
Defined.

Module PercentageFacts.

Lemma set_perc_percentage_label (st : Percentage.state) (x y : Z) :
  Percentage.text (exec (Percentage.set_perc x y) st) = percentage_label y.
Proof.
  unfold percentage_label, Percentage.set_perc.
  destruct (y =? 0); [done|]. by destruct (y =? 100).
Qed.

Lemma labels_checked :
  forallb (fun n =>
    let t := percentage_label (Z.of_nat n) in
    bool_decide (length t = 5%nat /\ head t = Some 91%N /\ last t = Some 93%N)
    && forallb (fun m =>
         implb (bool_decide (percentage_label (Z.of_nat m) = t)) (Nat.eqb m n))
         (seq 0 101))
    (seq 0 101) = true.
Proof. vm_compute. reflexivity. Qed.

End PercentageFacts.

(** X16.  For a scroll percentage from 0 to 100 the label [set_perc] shows
    is always five characters wide, opens with "[" and closes with "]",
    whatever [x] and the text shown before; and different percentages give
    different labels. *)
Theorem set_perc_label_fixed_width
    (st : Percentage.state) (x y : Z) :
  0 <= y <= 100 ->
  let t := Percentage.text (exec (Percentage.set_perc x y) st) in
  length t = 5%nat /\ head t = Some 91%N /\ last t = Some 93%N /\
  (forall (st' : Percentage.state) (x' y' : Z),
     0 <= y' <= 100 ->
     Percentage.text (exec (Percentage.set_perc x' y') st') = t -> y' = y).
Proof.
  intros Hy t. subst t. rewrite PercentageFacts.set_perc_percentage_label.
  pose proof PercentageFacts.labels_checked as Hall.
  rewrite forallb_forall in Hall.
  assert (Hin : forall z, 0 <= z <= 100 -> In (Z.to_nat z) (seq 0 101)).
  { intros z Hz. apply in_seq. lia. }
  specialize (Hall _ (Hin y Hy)). rewrite Z2Nat.id in Hall by lia.
  apply andb_true_iff in Hall as [Hshape Hinj].
  apply bool_decide_eq_true_1 in Hshape as (Hlen & Hhead & Hlast).
  split_and!; [done | done | done |].
  intros st' x' y' Hy' E. rewrite PercentageFacts.set_perc_percentage_label in E.
  rewrite forallb_forall in Hinj. specialize (Hinj _ (Hin y' Hy')).
  rewrite Z2Nat.id in Hinj by lia.
  rewrite bool_decide_eq_true_2 in Hinj by done.
  apply Nat.eqb_eq in Hinj. lia.
Qed.

Lemma set_perc_label_fixed_width_witness :
  0 <= 7 <= 100 /\
  Percentage.text (exec (Percentage.set_perc 3 7) (Percentage.mk_state []))
  = lit "[ 7%]" /\
  length (Percentage.text
            (exec (Percentage.set_perc 3 7) (Percentage.mk_state []))) = 5%nat.
Proof.
  split; [lia|]. split; [reflexivity|].
  exact (proj1 (set_perc_label_fixed_width (Percentage.mk_state []) 3 7
                  ltac:(lia))).
Defined.

